(** * archlib: the validation engine and its symbol extractors

    A shallow embedding of [archlib/nodes.py], [archlib/validation.py],
    [archlib/parsing/python.py], [archlib/parsing/javascript.py] and of
    [validate] and [run_tests] of [archlib/architecture.py], followed by
    the properties of these functions.

    Conventions of the embedding:
    - a Python [str] is a [string] (its UTF-8 bytes);
    - a Python [dict] is an insertion-ordered association list ([PyDict]);
    - a Python [set] that is only tested for membership is a [gset string];
      the one set that is iterated ([path] in [has_cycle]) keeps its
      insertion order and is listed through the runtime's iteration order;
    - a reference to a Solution inside [requires] is the id of the Solution
      it points to: the checks read nothing but [req.id] through it;
    - every f-string of [validation.py] is one constructor of [error], and
      [message] gives its text;
    - the file system and the Python runtime are a record of observations
      ([World]); the engine runs in a monad that reads it, logs the calls
      to the extractors and may raise;
    - the recursion limit of the interpreter is the number of nested calls
      of [has_cycle] it has room for ([frames]), and what [sys.stdout] can
      encode is a predicate on the printed texts ([encodes]). *)

From Stdlib Require Import String Ascii.
From stdpp Require Import gmap strings list sorting.

Open Scope string_scope.
Open Scope list_scope.

Set Warnings "-register-all,-clear-no-such-hyp".

(** ** Python values used by the constructors *)

Module Py.

(** A value of type [Optional[T]]. *)
Inductive pyopt (T : Type) : Type :=
| PyNone
| PyVal (v : T).
Arguments PyNone {T}.
Arguments PyVal {T} v.

(** Truth value of [None], of a list and of a dict (both kept as lists). *)
Definition truthy {A} (x : pyopt (list A)) : bool :=
  match x with
  | PyVal (_ :: _) => true
  | _ => false
  end.

(** [x or y] *)
Definition py_or {A} (x y : pyopt (list A)) : pyopt (list A) :=
  if truthy x then x else y.

Definition is_none {T} (x : pyopt T) : bool :=
  match x with PyNone => true | PyVal _ => false end.

End Py.
Export Py.

(** ** Insertion-ordered dictionaries *)

Module PyDict.

Definition pydict (V : Type) : Type := list (string * V).

Fixpoint dict_get {V} (k : string) (d : pydict V) : option V :=
  match d with
  | [] => None
  | (k', v) :: d' => if String.eqb k k' then Some v else dict_get k d'
  end.

Definition dict_mem {V} (k : string) (d : pydict V) : bool :=
  match dict_get k d with Some _ => true | None => false end.

(** [d[k] = v]: an existing key keeps its position, a new one goes last. *)
Fixpoint dict_set {V} (k : string) (v : V) (d : pydict V) : pydict V :=
  match d with
  | [] => [(k, v)]
  | (k', v') :: d' =>
      if String.eqb k k' then (k', v) :: d' else (k', v') :: dict_set k v d'
  end.

(** [{key(x): val(x) for x in xs}] *)
Definition dict_comp {A V} (key : A → string) (val : A → V) (xs : list A)
  : pydict V :=
  foldl (λ d x, dict_set (key x) (val x) d) [] xs.

End PyDict.
Export PyDict.

(** ** nodes.py *)

Module Nodes.

Inductive constraint_value : Type :=
| CStr (s : string)
| CNum (n : Z)
| CBool (b : bool).

Record Goal : Type := mkGoal {
  goal_id : string;
  goal_name : string;
  acceptance_test : string;
  goal_description : string
}.

(** The object [Solution.__init__] leaves behind: each optional attribute
    is a slot that could, as far as Python's typing goes, hold [None]. *)
Record SolutionObj : Type := mkSolutionObj {
  so_id : string;
  so_name : string;
  so_satisfies : pyopt (list Goal);
  so_requires : pyopt (list string);
  so_constraints : pyopt (pydict constraint_value);
  so_description : string
}.

Definition Solution_init (id_tag name : string)
    (satisfies : pyopt (list Goal))
    (requires : pyopt (list string))
    (constraints : pyopt (pydict constraint_value))
    (description : string) : SolutionObj :=
  {| so_id := id_tag;
     so_name := name;
     so_satisfies := py_or satisfies (PyVal []);
     so_requires := py_or requires (PyVal []);
     so_constraints := py_or constraints (PyVal []);
     so_description := description |}.

(** A Solution as the checks read it. *)
Record Solution : Type := mkSolution {
  sol_id : string;
  sol_name : string;
  satisfies : list Goal;
  requires : list string;
  constraints : pydict constraint_value;
  sol_description : string
}.

Definition Solution_view (o : SolutionObj) : option Solution :=
  match so_satisfies o, so_requires o, so_constraints o with
  | PyVal s, PyVal r, PyVal c =>
      Some (mkSolution (so_id o) (so_name o) s r c (so_description o))
  | _, _, _ => None
  end.

Record ImplementationObj : Type := mkImplementationObj {
  io_id : string;
  io_name : string;
  io_implements : Solution;
  io_code_files : pyopt (list string);
  io_test_files : pyopt (list string);
  io_must_define : pyopt (pydict (list string));
  io_description : string
}.

Definition Implementation_init (id_tag name : string)
    (implements : Solution)
    (code_files test_files : pyopt (list string))
    (must_define : pyopt (pydict (list string)))
    (description : string) : ImplementationObj :=
  {| io_id := id_tag;
     io_name := name;
     io_implements := implements;
     io_code_files := py_or code_files (PyVal []);
     io_test_files := py_or test_files (PyVal []);
     io_must_define := py_or must_define (PyVal []);
     io_description := description |}.

Record Implementation : Type := mkImplementation {
  impl_id : string;
  impl_name : string;
  implements : Solution;
  code_files : list string;
  test_files : list string;
  must_define : pydict (list string);
  impl_description : string
}.

Definition Implementation_view (o : ImplementationObj) : option Implementation :=
  match io_code_files o, io_test_files o, io_must_define o with
  | PyVal c, PyVal t, PyVal m =>
      Some (mkImplementation (io_id o) (io_name o) (io_implements o) c t m
              (io_description o))
  | _, _, _ => None
  end.

End Nodes.
Export Nodes.

(** ** Errors of the validation engine *)

Module Errors.

(** One constructor per message of [validation.py]. *)
Inductive error : Type :=
| ImplementsUnknown (impl sol : string)
| OrphanedSolution (sol : string)
| SatisfiesUnknown (sol goal : string)
| OrphanedGoal (goal : string)
| UnimplementedSolution (sol : string)
| RequiresUnknown (sol req : string)
| CircularDependency (cycle : list string)
| MissingCodeFile (impl file : string)
| MissingSymbols (impl file : string) (missing : list string)
| ParseFailure (impl file msg : string)
| UndeclaredFile (rel_path : string)
| MissingAcceptanceTest (goal file : string)
| MissingTestFile (impl file : string).

#[export] Instance error_eq_dec : EqDecision error.
Proof. solve_decision. Defined.

(** [repr] of a [str], for the characters that occur in symbol names and
    the usual escapes. *)
Fixpoint repr_escape (q : ascii) (s : string) : string :=
  match s with
  | EmptyString => EmptyString
  | String c s' =>
      let rest := repr_escape q s' in
      if Ascii.eqb c "\"%char then String "\" (String "\" rest)
      else if Ascii.eqb c q then String "\" (String c rest)
      else if Ascii.eqb c "010"%char then String "\" (String "n" rest)
      else if Ascii.eqb c "013"%char then String "\" (String "r" rest)
      else if Ascii.eqb c "009"%char then String "\" (String "t" rest)
      else String c rest
  end.

Fixpoint has_char (c : ascii) (s : string) : bool :=
  match s with
  | EmptyString => false
  | String c' s' => Ascii.eqb c c' || has_char c s'
  end.

Definition squote : ascii := "'"%char.
Definition dquote : ascii := "034"%char.

Definition repr_str (s : string) : string :=
  let q := if has_char squote s && negb (has_char dquote s)
           then dquote else squote in
  String q (repr_escape q s +:+ String q EmptyString).

Definition repr_list (l : list string) : string :=
  "[" +:+ String.concat ", " (map repr_str l) +:+ "]".

Definition arrow : string := " → ".

Definition message (e : error) : string :=
  match e with
  | ImplementsUnknown i s => i +:+ " implements " +:+ s +:+ " which doesn't exist"
  | OrphanedSolution s => s +:+ " satisfies no goals (orphaned solution)"
  | SatisfiesUnknown s g => s +:+ " satisfies " +:+ g +:+ " which doesn't exist"
  | OrphanedGoal g => g +:+ " is not satisfied by any solution (orphaned goal)"
  | UnimplementedSolution s => s +:+ " has no implementation (unimplemented solution)"
  | RequiresUnknown s r => s +:+ " requires " +:+ r +:+ " which doesn't exist"
  | CircularDependency c => "Circular dependency detected: " +:+ String.concat arrow c
  | MissingCodeFile i f => i +:+ ": Missing code file " +:+ f
  | MissingSymbols i f m => i +:+ ": " +:+ f +:+ " missing symbols: " +:+ repr_list m
  | ParseFailure i f msg => i +:+ ": " +:+ f +:+ " - " +:+ msg
  | UndeclaredFile p => "Undeclared code file: " +:+ p +:+ " (not in any Implementation)"
  | MissingAcceptanceTest g f => g +:+ ": Missing acceptance test file " +:+ f
  | MissingTestFile i f => i +:+ ": Missing test file " +:+ f
  end.

End Errors.
Export Errors.

(** ** validation.py: traceability *)

Module Traceability.

(** The loop over [implementations], one implementation at a time: the
    [continue] statements end the iteration for that implementation. *)
Definition check_implementation
    (solution_map : pydict Solution) (goal_map : pydict Goal)
    (impl : Implementation) : list error :=
  let sol := implements impl in
  match dict_get (sol_id sol) solution_map with
  | None => [ImplementsUnknown (impl_id impl) (sol_id sol)]
  | Some sol_obj =>
      match satisfies sol_obj with
      | [] => [OrphanedSolution (sol_id sol_obj)]
      | goals =>
          flat_map
            (λ goal, if dict_mem (goal_id goal) goal_map then []
                     else [SatisfiesUnknown (sol_id sol_obj) (goal_id goal)])
            goals
      end
  end.

(** [if k in d: d[k] = True] *)
Definition mark (d : pydict bool) (k : string) : pydict bool :=
  if dict_mem k d then dict_set k true d else d.

Definition goal_satisfied_by (solutions : list Solution) (goals : list Goal)
  : pydict bool :=
  foldl (λ d sol, foldl (λ d goal, mark d (goal_id goal)) d (satisfies sol))
    (dict_comp goal_id (λ _, false) goals) solutions.

Definition solution_implemented
    (implementations : list Implementation) (solutions : list Solution)
  : pydict bool :=
  foldl (λ d impl, mark d (sol_id (implements impl)))
    (dict_comp sol_id (λ _, false) solutions) implementations.

(** [for k, flag in d.items(): if not flag: errors.append(...)] *)
Definition unmarked (mk : string → error) (d : pydict bool) : list error :=
  flat_map (λ kv : string * bool, if snd kv then [] else [mk (fst kv)]) d.

Definition validate_traceability_errors
    (implementations : list Implementation) (solutions : list Solution)
    (goals : list Goal) : list error :=
  let solution_map := dict_comp sol_id (λ s, s) solutions in
  let goal_map := dict_comp goal_id (λ g, g) goals in
  flat_map (check_implementation solution_map goal_map) implementations
  ++ unmarked OrphanedGoal (goal_satisfied_by solutions goals)
  ++ unmarked UnimplementedSolution (solution_implemented implementations solutions).

Definition validate_traceability
    (implementations : list Implementation) (solutions : list Solution)
    (goals : list Goal) : list string :=
  map message (validate_traceability_errors implementations solutions goals).

End Traceability.
Export Traceability.

(** ** validation.py: dependencies *)

Module Dependencies.

(** The set [path]: its elements in insertion order. *)
Definition pyset_add (x : string) (s : list string) : list string :=
  if bool_decide (x ∈ s) then s else s ++ [x].

Definition pyset_remove (x : string) (s : list string) : list string :=
  filter (λ y : string, y ≠ x) s.

(** What one call of [has_cycle] leaves: its return value and the two sets
    it mutates. *)
Record dfs_result : Type := mkDfs {
  dfs_cycle : option (list string);
  dfs_visited : gset string;
  dfs_path : list string
}.

(** [if cycle:] on a value that is [None] or a list. *)
Definition cycle_found (c : option (list string)) : bool :=
  match c with
  | Some (_ :: _) => true
  | _ => false
  end.

(** [if cycle: errors.append(...)] in the loop over the roots. *)
Definition cycle_error (c : option (list string)) : list error :=
  match c with
  | Some (x :: c') => [CircularDependency (x :: c')]
  | _ => []
  end.

Section has_cycle.

(** [list(path)]: the order in which the runtime iterates over a set of
    strings holding these elements; it depends on the process's string
    hashing, not on the order of insertion. *)
Variable set_iter : list string → list string.
Variable solution_map : pydict Solution.

(** The loop [for req in sol.requires] of the call on [start_id], given
    what a recursive call does. *)
Fixpoint visit_requires
    (call : string → gset string → list string → option dfs_result)
    (start_id : string) (reqs : list string)
    (visited : gset string) (path : list string) : option dfs_result :=
  match reqs with
  | [] => Some (mkDfs None visited (pyset_remove start_id path))
  | req :: reqs' =>
      match call req visited path with
      | None => None
      | Some r =>
          if cycle_found (dfs_cycle r) then Some r
          else visit_requires call start_id reqs' (dfs_visited r) (dfs_path r)
      end
  end.

(** The recursion depth is bounded by [fuel]; [None] is fuel exhausted. *)
Fixpoint has_cycle (fuel : nat) (start_id : string)
    (visited : gset string) (path : list string) : option dfs_result :=
  match fuel with
  | O => None
  | S fuel' =>
      if bool_decide (start_id ∈ path) then
        Some (mkDfs (Some (set_iter path ++ [start_id])) visited path)
      else if bool_decide (start_id ∈ visited) then
        Some (mkDfs None visited path)
      else
        let visited := {[start_id]} ∪ visited in
        let path := pyset_add start_id path in
        match dict_get start_id solution_map with
        | None => Some (mkDfs None visited (pyset_remove start_id path))
        | Some sol =>
            visit_requires (has_cycle fuel') start_id (requires sol)
              visited path
        end
  end.

(** The loop over the roots; [visited] is shared by all of them, each root
    starts from a fresh [path]. *)
Fixpoint scan_roots (fuel : nat) (roots : list string) (visited : gset string)
  : option (list error) :=
  match roots with
  | [] => Some []
  | root :: roots' =>
      if bool_decide (root ∈ visited) then scan_roots fuel roots' visited
      else
        match has_cycle fuel root visited [] with
        | None => None
        | Some r =>
            match scan_roots fuel roots' (dfs_visited r) with
            | None => None
            | Some errs => Some (cycle_error (dfs_cycle r) ++ errs)
            end
        end
  end.

End has_cycle.

Definition missing_requires (solution_map : pydict Solution)
    (solutions : list Solution) : list error :=
  flat_map
    (λ sol, flat_map
       (λ req, if dict_mem req solution_map then []
               else [RequiresUnknown (sol_id sol) req])
       (requires sol))
    solutions.

(** Every call below the root adds a new key of [solution_map] to
    [visited] before it recurses, so the depth never exceeds the number of
    Solutions by more than one. *)
Definition dfs_fuel (solutions : list Solution) : nat :=
  S (length solutions).

(** The run of the whole check; [None] only if the recursion ran out of
    fuel, which [dfs_fuel] excludes (lemma [validate_dependencies_run_total]
    below). *)
Definition validate_dependencies_run
    (set_iter : list string → list string) (solutions : list Solution)
  : option (list error) :=
  let solution_map := dict_comp sol_id (λ s, s) solutions in
  match scan_roots set_iter solution_map (dfs_fuel solutions)
          (map sol_id solutions) ∅ with
  | None => None
  | Some cycles => Some (missing_requires solution_map solutions ++ cycles)
  end.

Definition validate_dependencies_errors
    (set_iter : list string → list string) (solutions : list Solution)
  : list error :=
  default [] (validate_dependencies_run set_iter solutions).

Definition validate_dependencies
    (set_iter : list string → list string) (solutions : list Solution)
  : list string :=
  map message (validate_dependencies_errors set_iter solutions).

End Dependencies.
Export Dependencies.

(** ** parsing/python.py *)

Module PythonParsing.

(** The three name sets every extractor returns. *)
Record symbols : Type := mkSymbols {
  classes : gset string;
  functions : gset string;
  globals : gset string
}.

Definition no_symbols : symbols := mkSymbols ∅ ∅ ∅.

Definition all_symbols (s : symbols) : gset string :=
  classes s ∪ functions s ∪ globals s.

(** The part of Python's [ast] the extractor inspects.  An assignment
    target is looked at only to see whether it is an [ast.Name]. *)
Inductive expr : Type :=
| Name (id : string)
| OtherExpr.

Inductive kind : Type :=
| FunctionDef (name : string)
| AsyncFunctionDef (name : string)
| ClassDef (name : string)
| Assign (targets : list expr)
| AnnAssign (target : expr)
| If
| With
| Try
| ExceptHandler
| For
| While
| OtherStmt.

(** A node with the statements (and exception handlers) among its child
    nodes, in field order.  Expression nodes are left out: none of them is
    a definition or an assignment statement, so the loop of the extractor
    does nothing on them. *)
Inductive node : Type :=
| Node (k : kind) (children : list node).

Definition node_kind (n : node) : kind :=
  match n with Node k _ => k end.

(** A node object is identified by its position: the child indices leading
    to it from the module. *)
Definition position : Type := list nat.

(** [ast.walk(n)] for the node [n] at position [p]: [n] and all its
    descendants.  ([ast.walk] promises no order, and the extractor only
    collects into sets.) *)
Fixpoint walk (p : position) (n : node) : list (position * node) :=
  match n with
  | Node _ cs =>
      (p, n) ::
      (fix walk_children (i : nat) (cs : list node) : list (position * node) :=
         match cs with
         | [] => []
         | c :: cs' => walk (p ++ [i]) c ++ walk_children (S i) cs'
         end) 0 cs
  end.

(** The statements of [tree.body] with their positions. *)
Definition module_body (body : list node) : list (position * node) :=
  imap (λ i n, ([i], n)) body.

(** [ast.walk(tree)] without the [Module] node itself. *)
Definition walk_module (body : list node) : list (position * node) :=
  flat_map (λ pn : position * node, walk (fst pn) (snd pn)) (module_body body).

Definition is_definition (k : kind) : bool :=
  match k with
  | FunctionDef _ | AsyncFunctionDef _ | ClassDef _ => true
  | _ => false
  end.

(** The flag [is_top_level] the extractor computes for an assignment node. *)
Definition is_top_level (body : list node) (p : position) : bool :=
  bool_decide (p ∈ (module_body body).*1)
  || existsb
       (λ parent : position * node,
          bool_decide (p ∈ (walk (fst parent) (snd parent)).*1)
          && negb (is_definition (node_kind (snd parent))))
       (module_body body).

Definition name_ids (targets : list expr) : list string :=
  flat_map (λ t, match t with Name id => [id] | OtherExpr => [] end) targets.

Definition visit (body : list node) (syms : symbols) (pn : position * node)
  : symbols :=
  match node_kind (snd pn) with
  | ClassDef name =>
      mkSymbols ({[name]} ∪ classes syms) (functions syms) (globals syms)
  | FunctionDef name | AsyncFunctionDef name =>
      mkSymbols (classes syms) ({[name]} ∪ functions syms) (globals syms)
  | Assign targets =>
      if is_top_level body (fst pn) then
        mkSymbols (classes syms) (functions syms)
          (list_to_set (name_ids targets) ∪ globals syms)
      else syms
  | AnnAssign target =>
      if is_top_level body (fst pn) then
        mkSymbols (classes syms) (functions syms)
          (list_to_set (name_ids [target]) ∪ globals syms)
      else syms
  | _ => syms
  end.

(** The body of [extract_python_symbols] once the file is parsed. *)
Definition module_symbols (body : list node) : symbols :=
  foldl (visit body) no_symbols (walk_module body).

End PythonParsing.
Export PythonParsing.

(** ** The regular expressions of parsing/javascript.py *)

Module Regex.

(** The constructs the patterns of the extractor use.  [Group] is the one
    capturing group a pattern has; [NotAhead] is [(?!...)]. *)
Inductive regex : Type :=
| Eps
| Chr (p : ascii → bool)
| Seq (r1 r2 : regex)
| Alt (r1 r2 : regex)
| Star (r : regex)
| Group (r : regex)
| NotAhead (r : regex).

(** The text consumed between the suffixes [s] and [s']. *)
Definition consumed (s s' : string) : string :=
  String.substring 0 (String.length s - String.length s') s.

(** A match attempt at the start of [s]: the suffix left after the match
    and the text of group 1. *)
Definition outcome : Type := option (string * option string).

(** Backtracking matcher in continuation-passing style: alternatives are
    tried left to right and [Star] is greedy, as in Python's [re]. *)
Fixpoint exec (r : regex) (s : string) (cap : option string)
    (k : string → option string → outcome) : outcome :=
  match r with
  | Eps => k s cap
  | Chr p =>
      match s with
      | String c s' => if p c then k s' cap else None
      | EmptyString => None
      end
  | Seq r1 r2 => exec r1 s cap (λ s' cap', exec r2 s' cap' k)
  | Alt r1 r2 =>
      match exec r1 s cap k with
      | Some o => Some o
      | None => exec r2 s cap k
      end
  | Star r1 =>
      (fix star (n : nat) (s : string) (cap : option string) : outcome :=
         match n with
         | O => k s cap
         | S n' =>
             match exec r1 s cap
                     (λ s' cap', if (String.length s' <? String.length s)%nat
                                 then star n' s' cap' else None) with
             | Some o => Some o
             | None => k s cap
             end
         end) (String.length s) s cap
  | Group r1 => exec r1 s cap (λ s' _, k s' (Some (consumed s s')))
  | NotAhead r1 =>
      match exec r1 s cap (λ s' cap', Some (s', cap')) with
      | Some _ => None
      | None => k s cap
      end
  end.

Definition match_here (r : regex) (s : string) : outcome :=
  exec r s None (λ s' cap, Some (s', cap)).

(** What [findall] returns for one match: group 1 if the pattern has one,
    the whole match otherwise. *)
Definition match_text (s s' : string) (cap : option string) : string :=
  default (consumed s s') cap.

(** The non-overlapping matches from left to right, each with the suffix
    that follows it. *)
Fixpoint matches_from (fuel : nat) (r : regex) (s : string)
  : list (string * string) :=
  match fuel with
  | O => []
  | S fuel' =>
      match match_here r s with
      | Some (s', cap) =>
          (match_text s s' cap, s') ::
          (if (String.length s' <? String.length s)%nat
           then matches_from fuel' r s'
           else match s with
                | String _ t => matches_from fuel' r t
                | EmptyString => []
                end)
      | None =>
          match s with
          | String _ t => matches_from fuel' r t
          | EmptyString => []
          end
      end
  end.

Definition finditer (r : regex) (s : string) : list (string * string) :=
  matches_from (S (String.length s)) r s.

Definition findall (r : regex) (s : string) : list string :=
  (finditer r s).*1.

(** [re.search(r, s)] followed by [.group(1)] *)
Definition search_group (r : regex) (s : string) : option string :=
  head (findall r s).

(** Pattern syntax *)

Definition is_char (c : ascii) : ascii → bool := Ascii.eqb c.
Definition not_char (c : ascii) : ascii → bool := λ x, negb (Ascii.eqb c x).

(** [\w] and [\s] on ASCII text. *)
Definition is_word (c : ascii) : bool :=
  let n := nat_of_ascii c in
  (((48 <=? n) && (n <=? 57)) || ((65 <=? n) && (n <=? 90))
   || ((97 <=? n) && (n <=? 122)) || (n =? 95))%nat.

Definition is_space (c : ascii) : bool :=
  let n := nat_of_ascii c in
  (((9 <=? n) && (n <=? 13)) || ((28 <=? n) && (n <=? 32)))%nat.

Fixpoint lit (s : string) : regex :=
  match s with
  | EmptyString => Eps
  | String c s' => Seq (Chr (is_char c)) (lit s')
  end.

Definition plus (r : regex) : regex := Seq r (Star r).
Definition word : regex := Chr is_word.
Definition space : regex := Chr is_space.

(** [content.find(sub, start)] on the suffix that begins at [start]: the
    text before the first occurrence of [sub], if there is one. *)
Fixpoint text_before (sub s : string) : option string :=
  if String.prefix sub s then Some EmptyString
  else match s with
       | EmptyString => None
       | String c s' => option_map (String c) (text_before sub s')
       end.

End Regex.
Export Regex.

(** ** The Python runtime and the operating system, as the code sees them *)

Module Runtime.

Inductive exn_class : Type :=
| SyntaxError
| ValueError
| OtherException.

(** An exception below [Exception]: its class as far as the handlers of
    this code tell classes apart, and [str(e)]. *)
Record exn : Type := mkExn {
  exn_kind : exn_class;
  exn_text : string
}.

Inductive result (A : Type) : Type :=
| Ok (a : A)
| Raise (e : exn).
Arguments Ok {A} a.
Arguments Raise {A} e.

(** A directory entry as [os.walk] classifies it. *)
Inductive entry : Type :=
| File (name : string)
| Dir (name : string) (children : list entry).

(** Everything the code reads from outside its arguments. *)
Record World : Type := mkWorld {
  (** order in which a set of strings is iterated *)
  set_iter : list string → list string;
  (** [ast.parse(content, filename=...)], giving [tree.body] *)
  ast_parse : string → string → result (list node);
  (** whether [from tree_sitter import Language, Parser] succeeds *)
  tree_sitter_importable : bool;
  (** [os.path.exists] *)
  path_exists : string → bool;
  (** [open(path, "r", encoding="utf-8")] followed by [read()] *)
  read_text : string → result string;
  (** the directory tree [os.walk(top)] finds below [top] *)
  listing : string → list entry;
  (** [os.path.abspath(top).split(os.sep)] *)
  abspath_parts : string → list string
}.

(** What the engine asks of the extractors, in the order of the calls. *)
Inductive event : Type :=
| CallExtractPython (full_path : string)
| CallExtractJavascript (full_path : string).

Record State : Type := mkState {
  world : World;
  trace : list event
}.

(** A computation that reads the world, may log calls and may raise. *)
Definition M (A : Type) : Type := State → result A * State.

#[export] Instance M_ret : MRet M := λ A a s, (Ok a, s).

#[export] Instance M_bind : MBind M := λ A B f m s,
  match m s with
  | (Ok a, s') => f a s'
  | (Raise e, s') => (Raise e, s')
  end.

Definition get_world : M World := λ s, (Ok (world s), s).

Definition log (ev : event) : M unit :=
  λ s, (Ok tt, mkState (world s) (trace s ++ [ev])).

(** Running a function that returns or raises. *)
Definition lift {A} (r : result A) : M A := λ s, (r, s).

(** [try: m  except ValueError as e: h(e)] *)
Definition try_except_ValueError {A} (m : M A) (h : exn → M A) : M A :=
  λ s,
    match m s with
    | (Raise e, s') =>
        match exn_kind e with
        | ValueError => h e s'
        | _ => (Raise e, s')
        end
    | r => r
    end.

(** [for x in xs:] with a body that appends to the error list. *)
Fixpoint for_each {A E} (xs : list A) (body : A → M (list E)) : M (list E) :=
  match xs with
  | [] => mret []
  | x :: xs' =>
      errs ← body x;
      rest ← for_each xs' body;
      mret (errs ++ rest)
  end.

End Runtime.
Export Runtime.

(** ** The functions of [os.path] and [str] the code calls (POSIX) *)

Module OsPath.

Definition slash : ascii := "/"%char.
Definition dot : ascii := "."%char.

Definition chars (s : string) : list ascii := list_ascii_of_string s.
Definition text (l : list ascii) : string := string_of_list_ascii l.

Definition ends_with_slash (s : string) : bool :=
  match last (chars s) with
  | Some c => Ascii.eqb c slash
  | None => false
  end.

(** [os.path.join(a, b)] *)
Definition path_join (a b : string) : string :=
  if String.prefix "/" b then b
  else if String.eqb a "" || ends_with_slash a then a +:+ b
  else a +:+ "/" +:+ b.

(** The characters after the last [c] and those up to it, if [c] occurs. *)
Fixpoint rsplit (c : ascii) (l : list ascii) : option (list ascii * list ascii) :=
  match l with
  | [] => None
  | x :: l' =>
      match rsplit c l' with
      | Some (before, after) => Some (x :: before, after)
      | None => if Ascii.eqb x c then Some ([], l') else None
      end
  end.

Definition basename_chars (p : string) : list ascii :=
  match rsplit slash (chars p) with
  | Some (_, after) => after
  | None => chars p
  end.

(** [os.path.splitext(p)[1]]: from the last dot of the last component on,
    unless only dots precede that dot. *)
Definition splitext_ext (p : string) : string :=
  match rsplit dot (basename_chars p) with
  | Some (before, after) =>
      if forallb (Ascii.eqb dot) before then "" else text (dot :: after)
  | None => ""
  end.

Definition lower_char (c : ascii) : ascii :=
  let n := nat_of_ascii c in
  if ((65 <=? n) && (n <=? 90))%nat then ascii_of_nat (n + 32) else c.

(** [s.lower()] on ASCII letters. *)
Definition lower (s : string) : string := text (map lower_char (chars s)).

(** ["/".join(parts)] *)
Definition join_parts (parts : list string) : string := String.concat "/" parts.

End OsPath.
Export OsPath.

(** ** parsing/javascript.py *)

Module JavascriptParsing.

Definition seq_all (rs : list regex) : regex := foldr Seq Eps rs.

(** [class\s+(\w+)] *)
Definition class_pattern : regex :=
  seq_all [lit "class"; plus space; Group (plus word)].

(** [class\s+NAME\s*\{] *)
Definition class_pattern_full (class_name : string) : regex :=
  seq_all [lit "class"; plus space; lit class_name; Star space; lit "{"].

Definition params : regex :=
  seq_all [lit "("; Star (Chr (not_char ")")); lit ")"].

Definition method_patterns : list regex :=
  [ (* (\w+)\s*\([^)]*\)\s*{ *)
    seq_all [Group (plus word); Star space; params; Star space; lit "{"];
    (* (\w+)\s*=\s*\([^)]*\)\s*=> *)
    seq_all [Group (plus word); Star space; lit "="; Star space; params;
             Star space; lit "=>"];
    (* (\w+)\s*=\s*async\s*\([^)]*\)\s*=> *)
    seq_all [Group (plus word); Star space; lit "="; Star space; lit "async";
             Star space; params; Star space; lit "=>"] ].

(** [(?:function|\(|async\s+function)] *)
Definition function_value : regex :=
  Alt (lit "function")
    (Alt (lit "(") (seq_all [lit "async"; plus space; lit "function"])).

(** [KEYWORD\s+(\w+)\s*=\s*] *)
Definition binding (keyword : string) : list regex :=
  [lit keyword; plus space; Group (plus word); Star space; lit "="; Star space].

Definition function_patterns : list regex :=
  [ (* function\s+(\w+)\s*\( *)
    seq_all [lit "function"; plus space; Group (plus word); Star space; lit "("];
    seq_all (binding "const" ++ [function_value]);
    seq_all (binding "let" ++ [function_value]);
    seq_all (binding "var" ++ [function_value]);
    (* async\s+function\s+(\w+)\s*\( *)
    seq_all [lit "async"; plus space; lit "function"; plus space;
             Group (plus word); Star space; lit "("] ].

(** [(?!function|\(|async)] *)
Definition not_function_value : regex :=
  NotAhead (Alt (lit "function") (Alt (lit "(") (lit "async"))).

Definition global_patterns : list regex :=
  [ (* window\.(\w+)\s*= *)
    seq_all [lit "window."; Group (plus word); Star space; lit "="];
    seq_all (binding "const" ++ [not_function_value]);
    seq_all (binding "let" ++ [not_function_value]);
    seq_all (binding "var" ++ [not_function_value]) ].

(** [module\.exports\s*=\s*\{([^}]+)\}] *)
Definition module_exports_pattern : regex :=
  seq_all [lit "module.exports"; Star space; lit "="; Star space; lit "{";
           Group (plus (Chr (not_char "}"))); lit "}"].

(** [(\w+)\s*:] *)
Definition export_pattern : regex :=
  seq_all [Group (plus word); Star space; lit ":"].

(** The set objects alive in [_parse_javascript_with_regex]: the three
    values of the [symbols] dict and the three local sets.  They are six
    different objects; [update] copies elements from one into another. *)
Record js_sets : Type := mkJsSets {
  symbols_classes : gset string;
  symbols_functions : gset string;
  symbols_globals : gset string;
  local_classes : gset string;
  local_functions : gset string;
  local_globals_set : gset string
}.

Definition fresh_sets : js_sets := mkJsSets ∅ ∅ ∅ ∅ ∅ ∅.

(** The text of the class body: from the end of the match to the next
    ["class "], or to the end of the file. *)
Definition class_chunk (after : string) : string :=
  default after (text_before "class " after).

(** The names the method patterns find in the chunks of one class. *)
Definition class_methods (content class_name : string) : list string :=
  flat_map
    (λ m : string * string,
       flat_map (λ pattern, findall pattern (class_chunk (snd m)))
         method_patterns)
    (finditer (class_pattern_full class_name) content).

Definition find_all_of (patterns : list regex) (content : string) : list string :=
  flat_map (λ pattern, findall pattern content) patterns.

(** The keys of the object literal assigned to [module.exports]. *)
Definition exported (content : string) : list string :=
  match search_group module_exports_pattern content with
  | Some exports_content => findall export_pattern exports_content
  | None => []
  end.

(** The statements of the function after the file is read, in order. *)
Definition step_classes (content : string) (st : js_sets) : js_sets :=
  let classes := list_to_set (findall class_pattern content) in
  mkJsSets (symbols_classes st ∪ classes) (symbols_functions st)
    (symbols_globals st) classes (local_functions st) (local_globals_set st).

Definition step_methods (content : string) (st : js_sets) : js_sets :=
  let found := flat_map (class_methods content) (elements (local_classes st)) in
  mkJsSets (symbols_classes st) (symbols_functions st) (symbols_globals st)
    (local_classes st) (local_functions st ∪ list_to_set found)
    (local_globals_set st).

Definition step_functions (content : string) (st : js_sets) : js_sets :=
  mkJsSets (symbols_classes st) (symbols_functions st) (symbols_globals st)
    (local_classes st)
    (local_functions st ∪ list_to_set (find_all_of function_patterns content))
    (local_globals_set st).

(** [symbols["functions"].update(functions)] *)
Definition step_publish_functions (st : js_sets) : js_sets :=
  mkJsSets (symbols_classes st) (symbols_functions st ∪ local_functions st)
    (symbols_globals st) (local_classes st) (local_functions st)
    (local_globals_set st).

Definition step_globals (content : string) (st : js_sets) : js_sets :=
  mkJsSets (symbols_classes st) (symbols_functions st) (symbols_globals st)
    (local_classes st) (local_functions st)
    (local_globals_set st ∪ list_to_set (find_all_of global_patterns content)).

(** [functions.update(exported)] *)
Definition step_exports (content : string) (st : js_sets) : js_sets :=
  mkJsSets (symbols_classes st) (symbols_functions st) (symbols_globals st)
    (local_classes st) (local_functions st ∪ list_to_set (exported content))
    (local_globals_set st).

(** [symbols["globals"].update(globals_set)] *)
Definition step_publish_globals (st : js_sets) : js_sets :=
  mkJsSets (symbols_classes st) (symbols_functions st)
    (symbols_globals st ∪ local_globals_set st) (local_classes st)
    (local_functions st) (local_globals_set st).

Definition run_regex_parser (content : string) : js_sets :=
  step_publish_globals
    (step_exports content
       (step_globals content
          (step_publish_functions
             (step_functions content
                (step_methods content
                   (step_classes content fresh_sets)))))).

(** The [symbols] dict that is returned. *)
Definition returned_symbols (st : js_sets) : symbols :=
  mkSymbols (symbols_classes st) (symbols_functions st) (symbols_globals st).

Definition failed_to_parse (file_path : string) (e : exn) : exn :=
  mkExn ValueError ("Failed to parse " +:+ file_path +:+ ": " +:+ exn_text e).

Definition _parse_javascript_with_regex (w : World) (file_path : string)
  : result symbols :=
  match read_text w file_path with
  | Ok content => Ok (returned_symbols (run_regex_parser content))
  | Raise e => Raise (failed_to_parse file_path e)
  end.

Definition language_of (ext : string) : string :=
  if String.eqb ext ".js" then "javascript"
  else if String.eqb ext ".jsx" then "javascript"
  else if String.eqb ext ".ts" then "typescript"
  else if String.eqb ext ".tsx" then "tsx"
  else "javascript".

(** Every path through [_init_treesitter_parser] returns [None]. *)
Definition _init_treesitter_parser (w : World) (language : string)
  : option unit :=
  if tree_sitter_importable w then
    if bool_decide (lower language ∈ ["javascript"; "typescript"; "tsx"])
    then None else None
  else None.

Definition _parse_with_treesitter (w : World) (file_path language : string)
  : option symbols :=
  match _init_treesitter_parser w language with
  | None => None
  | Some _ => None
  end.

Definition extract_javascript_symbols (w : World) (file_path : string)
  : result symbols :=
  let language := language_of (lower (splitext_ext file_path)) in
  match _parse_with_treesitter w file_path language with
  | Some r => Ok r
  | None => _parse_javascript_with_regex w file_path
  end.

End JavascriptParsing.
Export JavascriptParsing.

(** ** parsing/python.py: reading and parsing the file *)

Module PythonExtractor.

(** The two handlers of [extract_python_symbols]. *)
Definition as_value_error (file_path : string) (e : exn) : exn :=
  match exn_kind e with
  | SyntaxError =>
      mkExn ValueError
        ("Syntax error in " +:+ file_path +:+ ": " +:+ exn_text e)
  | _ =>
      mkExn ValueError
        ("Failed to parse " +:+ file_path +:+ ": " +:+ exn_text e)
  end.

Definition extract_python_symbols (w : World) (file_path : string)
  : result symbols :=
  match read_text w file_path with
  | Raise e => Raise (as_value_error file_path e)
  | Ok content =>
      match ast_parse w content file_path with
      | Raise e => Raise (as_value_error file_path e)
      | Ok body => Ok (module_symbols body)
      end
  end.

End PythonExtractor.
Export PythonExtractor.

(** ** validation.py: code inventory and test inventory *)

Module Inventory.

Definition code_extensions : list string := [".py"; ".js"; ".jsx"; ".ts"; ".tsx"].

Definition javascript_extensions : list string := [".js"; ".jsx"; ".ts"; ".tsx"].

Definition ignored_dirs : list string :=
  [".git"; "__pycache__"; "node_modules"; ".venv"; "venv"; "examples"].

(** [declared_files] after the first loop. *)
Definition declared_files (implementations : list Implementation) : gset string :=
  list_to_set (flat_map code_files implementations).

(** [declared_test_files] after the first loop and the loop over [goals];
    [goals] is [None] when the argument is left out. *)
Definition declared_test_files (implementations : list Implementation)
    (goals : option (list Goal)) : gset string :=
  list_to_set (flat_map test_files implementations)
  ∪ match goals with
    | Some (g :: gs) => list_to_set (map acceptance_test (g :: gs))
    | _ => ∅
    end.

(** [required_symbols - all_actual], reported sorted when non-empty. *)
Definition report_missing (impl : Implementation) (file_path : string)
    (required : list string) (actual : symbols) : list error :=
  let missing : gset string := list_to_set required ∖ all_symbols actual in
  match merge_sort String.leb (elements missing) with
  | [] => []
  | m :: ms => [MissingSymbols (impl_id impl) file_path (m :: ms)]
  end.

Section top_down.

Variable root_dir : string.

(** The [try] block: choose the extractor by extension, call it, compare. *)
Definition extract_and_compare (impl : Implementation)
    (file_path full_path : string) (required : list string) : M (list error) :=
  let ext := lower (splitext_ext file_path) in
  if String.eqb ext ".py" then
    _ ← log (CallExtractPython full_path);
    w ← get_world;
    actual ← lift (extract_python_symbols w full_path);
    mret (report_missing impl file_path required actual)
  else if bool_decide (ext ∈ javascript_extensions) then
    _ ← log (CallExtractJavascript full_path);
    w ← get_world;
    actual ← lift (extract_javascript_symbols w full_path);
    mret (report_missing impl file_path required actual)
  else mret [].

(** One iteration of the loop over [impl.code_files]. *)
Definition check_code_file (impl : Implementation) (file_path : string)
  : M (list error) :=
  w ← get_world;
  let full_path := path_join root_dir file_path in
  if negb (path_exists w full_path) then
    mret [MissingCodeFile (impl_id impl) file_path]
  else
    match dict_get file_path (must_define impl) with
    | None => mret []
    | Some required =>
        try_except_ValueError
          (extract_and_compare impl file_path full_path required)
          (λ e, mret [ParseFailure (impl_id impl) file_path (exn_text e)])
    end.

Definition top_down (implementations : list Implementation) : M (list error) :=
  for_each implementations
    (λ impl, for_each (code_files impl) (check_code_file impl)).

End top_down.

(** [os.walk(top)], top-down.  The caller replaces the contents of the
    yielded [dirs] list before the walk descends; [keep] is the filter it
    applies.  Each item is a directory (its path below [top]) with the
    names of its files. *)
Definition file_names (es : list entry) : list string :=
  flat_map (λ e, match e with File n => [n] | Dir _ _ => [] end) es.

Fixpoint os_walk_entry (keep : string → bool) (pre : list string) (e : entry)
  : list (list string * list string) :=
  match e with
  | File _ => []
  | Dir d cs =>
      if keep d then
        (pre ++ [d], file_names cs)
        :: flat_map (os_walk_entry keep (pre ++ [d])) cs
      else []
  end.

Definition os_walk (keep : string → bool) (es : list entry)
  : list (list string * list string) :=
  ([], file_names es) :: flat_map (os_walk_entry keep []) es.

Definition kept (d : string) : bool := negb (bool_decide (d ∈ ignored_dirs)).

Section bottom_up.

Variable w : World.
Variable root_dir : string.
Variables declared declared_tests : gset string.

(** The body of the loop over [files], for the file [file] of the
    directory [pre]. *)
Definition scan_file (pre : list string) (file : string) : list error :=
  let ext := lower (splitext_ext file) in
  if bool_decide (ext ∈ code_extensions) then
    let path_parts := pre ++ [file] in
    let rel_path := join_parts path_parts in
    let abs_path_parts := abspath_parts w root_dir ++ path_parts in
    if bool_decide ("examples" ∈ path_parts)
       || bool_decide ("examples" ∈ abs_path_parts)
       || String.prefix "examples/" rel_path
    then []
    else if bool_decide (rel_path ∉ declared)
            && bool_decide (rel_path ∉ declared_tests)
    then [UndeclaredFile rel_path]
    else []
  else [].

Definition bottom_up : list error :=
  flat_map
    (λ item : list string * list string,
       flat_map (scan_file (fst item)) (snd item))
    (os_walk kept (listing w root_dir)).

End bottom_up.

Definition validate_code_inventory_errors
    (implementations : list Implementation) (goals : option (list Goal))
    (root_dir : string) : M (list error) :=
  top ← top_down root_dir implementations;
  w ← get_world;
  mret (top ++ bottom_up w root_dir (declared_files implementations)
                 (declared_test_files implementations goals)).


Definition validate_test_inventory_errors
    (goals : list Goal) (implementations : list Implementation)
    (root_dir : string) : M (list error) :=
  w ← get_world;
  mret
    (flat_map
       (λ goal,
          if path_exists w (path_join root_dir (acceptance_test goal)) then []
          else [MissingAcceptanceTest (goal_id goal) (acceptance_test goal)])
       goals
     ++ flat_map
          (λ impl,
             flat_map
               (λ test_file,
                  if path_exists w (path_join root_dir test_file) then []
                  else [MissingTestFile (impl_id impl) test_file])
               (test_files impl))
          implementations).

Definition validate_test_inventory
    (goals : list Goal) (implementations : list Implementation)
    (root_dir : string) : M (list string) :=
  errs ← validate_test_inventory_errors goals implementations root_dir;
  mret (map message errs).

End Inventory.
Export Inventory.

(** ** architecture.py: the error list of [Architecture.validate] *)

Module Arch.

Record Architecture : Type := mkArchitecture {
  arch_goals : list Goal;
  arch_solutions : list Solution;
  arch_implementations : list Implementation
}.

(** [RecursionError]: the interpreter refuses a call that would nest
    deeper than its recursion limit allows. *)
Definition recursion_error : exn :=
  mkExn OtherException "maximum recursion depth exceeded".

(** [validate_dependencies] called where the interpreter has room for
    [frames] nested calls of [has_cycle]: a call nested deeper raises, and
    nothing in the function catches it. *)
Definition validate_dependencies_within (frames : nat)
    (set_iter : list string → list string) (solutions : list Solution)
  : result (list error) :=
  let solution_map := dict_comp sol_id (λ s, s) solutions in
  match scan_roots set_iter solution_map frames (map sol_id solutions) ∅ with
  | None => Raise recursion_error
  | Some cycles => Ok (missing_requires solution_map solutions ++ cycles)
  end.

(** The four [errors.extend(...)] statements of [validate], in a process
    with room for [frames] nested calls. *)
Definition validation_errors (frames : nat) (a : Architecture)
  : M (list error) :=
  let e1 := validate_traceability_errors (arch_implementations a)
              (arch_solutions a) (arch_goals a) in
  w ← get_world;
  e2 ← lift (validate_dependencies_within frames (set_iter w)
               (arch_solutions a));
  e3 ← validate_code_inventory_errors (arch_implementations a)
         (Some (arch_goals a)) ".";
  e4 ← validate_test_inventory_errors (arch_goals a)
         (arch_implementations a) ".";
  mret (e1 ++ e2 ++ e3 ++ e4).

Definition validation_messages (frames : nat) (a : Architecture)
  : M (list string) :=
  errs ← validation_errors frames a;
  mret (map message errs).

End Arch.
Export Arch.

(** ** Notions used to state the properties *)

Module Props.

(** How many times [x] occurs in [l]. *)
Definition occurrences `{EqDecision A} (x : A) (l : list A) : nat :=
  length (filter (λ y, y = x) l).

(** [sub] occurs in [s] as a contiguous piece. *)
Definition contains (s sub : string) : Prop :=
  ∃ before after, s = before +:+ sub +:+ after.

(** The implementations whose [implements] carries the id [k]. *)
Definition implementing (k : string) (impls : list Implementation)
  : list Implementation :=
  filter (λ impl, sol_id (implements impl) = k) impls.

(** The keys of a dict, as a set. *)
Definition keys {V} (d : pydict V) : gset string := list_to_set d.*1.

(** A computation that leaves the world as it is and whose outcome is
    determined by the world alone (not by what was logged before). *)
Definition reads_only {A} (m : M A) : Prop :=
  ∀ s, world (m s).2 = world s
       ∧ ∀ s2, world s2 = world s → (m s2).1 = (m s).1.

(** A computation that always returns: [f] gives, from the world, its
    value and the calls it logs. *)
Definition returns {A} (m : M A) (f : World → A * list event) : Prop :=
  ∀ s, m s = (Ok (f (world s)).1,
              mkState (world s) (trace s ++ (f (world s)).2)).

(** The extractor the engine calls for a code file, by extension: the
    logged call and what the extractor gives back. *)
Definition extraction (w : World) (file_path full_path : string)
  : option (event * result symbols) :=
  let ext := lower (splitext_ext file_path) in
  if String.eqb ext ".py" then
    Some (CallExtractPython full_path, extract_python_symbols w full_path)
  else if bool_decide (ext ∈ javascript_extensions) then
    Some (CallExtractJavascript full_path,
          extract_javascript_symbols w full_path)
  else None.

(** Errors and extractor calls of one declared code file. *)
Definition code_file_outcome (w : World) (root_dir : string)
    (impl : Implementation) (file_path : string) : list error * list event :=
  let full_path := path_join root_dir file_path in
  if negb (path_exists w full_path) then
    ([MissingCodeFile (impl_id impl) file_path], [])
  else
    match dict_get file_path (must_define impl) with
    | None => ([], [])
    | Some required =>
        match extraction w file_path full_path with
        | None => ([], [])
        | Some (ev, Ok actual) =>
            (report_missing impl file_path required actual, [ev])
        | Some (ev, Raise e) =>
            ([ParseFailure (impl_id impl) file_path (exn_text e)], [ev])
        end
    end.

(** The declared code files, each with its implementation. *)
Definition declared_code_files (impls : list Implementation)
  : list (Implementation * string) :=
  flat_map (λ impl, map (λ f, (impl, f)) (code_files impl)) impls.

Definition top_down_outcome (w : World) (root_dir : string)
    (impls : list Implementation) : list error * list event :=
  (flat_map (λ p : Implementation * string,
               (code_file_outcome w root_dir p.1 p.2).1)
     (declared_code_files impls),
   flat_map (λ p : Implementation * string,
               (code_file_outcome w root_dir p.1 p.2).2)
     (declared_code_files impls)).





(** [file] is a file of the directory reached from [es] through [dirs]. *)
Fixpoint file_at (es : list entry) (dirs : list string) (file : string)
  : bool :=
  match dirs with
  | [] => bool_decide (file ∈ file_names es)
  | d :: ds =>
      existsb
        (λ e, match e with
              | Dir d' cs => String.eqb d d' && file_at cs ds file
              | File _ => false
              end)
        es
  end.


(** The errors the loop body of the bottom-up pass gives on the items
    [os.walk] yields. *)
Definition scan_items (w : World) (root_dir : string)
    (declared declared_tests : gset string)
    (items : list (list string * list string)) : list error :=
  flat_map
    (λ item : list string * list string,
       flat_map (scan_file w root_dir declared declared_tests item.1) item.2)
    items.

End Props.
Export Props.

(** ** Concrete projects used as inputs below *)

Module Examples.

(** A Solution that satisfies no Goal, and Implementations of it. *)
Definition lonely_solution : Solution := mkSolution "S-1" "Strategy" [] [] [] "".

Definition lonely_impl (i : string) : Implementation :=
  mkImplementation i "Code" lonely_solution [] [] [] "".

(** Two Solutions that require each other. *)
Definition mutual_a : Solution := mkSolution "S-1" "First" [] ["S-2"] [] "".
Definition mutual_b : Solution := mkSolution "S-2" "Second" [] ["S-1"] [] "".

(** A requires B, and B and C require each other. *)
Definition tail_into_loop : list Solution :=
  [ mkSolution "A" "Entry" [] ["B"] [] "";
    mkSolution "B" "Loop head" [] ["C"] [] "";
    mkSolution "C" "Loop back" [] ["B"] [] "" ].

(** Iteration in insertion order, and in the opposite order. *)
Definition insertion_order (l : list string) : list string := l.
Definition reverse_order (l : list string) : list string := reverse l.

(** The module
<<
if True:
    def f():
        x = 1
>>
    as [ast.parse] gives it. *)
Definition guarded_function : list node :=
  [Node If [Node (FunctionDef "f") [Node (Assign [Name "x"]) []]]].

(** The same function at the top of the module. *)
Definition plain_function : list node :=
  [Node (FunctionDef "f") [Node (Assign [Name "x"]) []]].

(** A JavaScript file that assigns an object literal to [module.exports]. *)
Definition exports_js : string := "module.exports = { foo: 1 };".

(** A world with no files, no tree-sitter and insertion-ordered sets. *)
Definition empty_world : World :=
  {| set_iter := insertion_order;
     ast_parse := λ _ _, Raise (mkExn SyntaxError "invalid syntax");
     tree_sitter_importable := false;
     path_exists := λ _, false;
     read_text := λ _, Raise (mkExn OtherException "No such file or directory");
     listing := λ _, [];
     abspath_parts := λ _, [""; "home"; "project"] |}.

(** The same world with one readable file at [path]; [body] is what
    [ast.parse] gives for its content. *)
Definition one_file_world (path content : string) (body : list node) : World :=
  {| set_iter := insertion_order;
     ast_parse := λ c _, if String.eqb c content then Ok body
                         else Raise (mkExn SyntaxError "invalid syntax");
     tree_sitter_importable := false;
     path_exists := String.eqb path;
     read_text := λ p, if String.eqb p path then Ok content
                       else Raise (mkExn OtherException
                                     "No such file or directory");
     listing := λ _, [File path];
     abspath_parts := λ _, [""; "home"; "project"] |}.

(** A project tree with a source file below [src], an examples directory
    and a file that is not source code. *)
Definition project_tree : list entry :=
  [ Dir "src" [File "y.py"; File "notes.txt"];
    Dir "examples" [File "demo.py"];
    File "README.md" ].

Definition project_world : World :=
  {| set_iter := insertion_order;
     ast_parse := λ _ _, Ok [];
     tree_sitter_importable := false;
     path_exists := λ _, true;
     read_text := λ _, Ok "";
     listing := λ _, project_tree;
     abspath_parts := λ _, [""; "home"; "project"] |}.

(** The same tree checked out below a directory called [examples]. *)
Definition world_below_examples : World :=
  {| set_iter := insertion_order;
     ast_parse := λ _ _, Ok [];
     tree_sitter_importable := false;
     path_exists := λ _, true;
     read_text := λ _, Ok "";
     listing := λ _, project_tree;
     abspath_parts := λ _, [""; "home"; "examples"; "project"] |}.

(** A Goal whose acceptance test is the source file [src/y.py]. *)
Definition goal_tested_by_y : Goal :=
  mkGoal "G-1" "Feature" "src/y.py" "".

Definition start_of (w : World) : State := mkState w [].

(** The file written by [test_regex_fallback_parsing]. *)
Definition regex_test_js : string := "
class MyClass {
    constructor() {}
    methodName() {}
    async asyncMethod() {}
}

function standaloneFunction() {}

const arrowFunction = () => {};

async function asyncFunction() {}

module.exports = {
    exportedFunction: function() {}
};

const GLOBAL_CONST = 42;
".

(** The module written by [test_basic_validation]: a class, a function
    and a module-level assignment. *)
Definition basic_test_py : list node :=
  [ Node (ClassDef "ExampleClass") [Node OtherStmt []];
    Node (FunctionDef "example_function") [Node OtherStmt []];
    Node (Assign [Name "GLOBAL_VAR"]) [] ].

End Examples.
Export Examples.

(** ** Notions used to state the further properties *)

Module Notions.

(** The Goal ids that occur in some Solution's [satisfies]. *)
Definition satisfied_ids (solutions : list Solution) : list string :=
  flat_map (λ sol, map goal_id (satisfies sol)) solutions.

(** The Solution ids that occur as some Implementation's [implements]. *)
Definition implemented_ids (impls : list Implementation) : list string :=
  map (λ impl, sol_id (implements impl)) impls.

(** The Solution an id resolves to: with several Solutions of one id, the
    dict comprehension keeps the last. *)
Definition resolve (solutions : list Solution) (k : string) : option Solution :=
  dict_get k (dict_comp sol_id (λ s, s) solutions).

End Notions.
Export Notions.

(** ** The requires graph *)

Module Graph.

(** [a] requires [b]: the Solution [a] resolves to lists [b]. *)
Definition map_edge (solution_map : pydict Solution) (a b : string) : Prop :=
  ∃ s, dict_get a solution_map = Some s ∧ b ∈ requires s.

Definition requires_edge (solutions : list Solution) : relation string :=
  map_edge (dict_comp sol_id (λ s, s) solutions).

(** No requires-cycle can be reached from [a]. *)
Definition cycle_free_from (solution_map : pydict Solution) (a : string) : Prop :=
  Acc (flip (map_edge solution_map)) a.

Section traversal_notions.

Variable set_iter : list string → list string.
Variable solution_map : pydict Solution.

(** What a call that found a cycle returns: the whole path, listed by the
    set iteration, then the revisited node, which is on the path; every
    node of the path leads to it. *)
Definition cycle_report (c : option (list string)) : Prop :=
  ∃ p x, c = Some (set_iter p ++ [x]) ∧ x ∈ p
         ∧ ∀ y, y ∈ p → tc (map_edge solution_map) y x.

(** All visited nodes off the path are free of cycles. *)
Definition settled (visited : gset string) (path : list string) : Prop :=
  ∀ v, v ∈ visited → v ∉ path → cycle_free_from solution_map v.

(** What a call that found no cycle leaves behind. *)
Definition finished (start_id : string) (visited : gset string)
    (path : list string) (r : dfs_result) : Prop :=
  (start_id ∉ path)
  ∧ dfs_path r = path
  ∧ visited ⊆ dfs_visited r
  ∧ start_id ∈ dfs_visited r
  ∧ (settled visited path → settled (dfs_visited r) path).

Definition outcome_ok (start_id : string) (visited : gset string)
    (path : list string) (r : dfs_result) : Prop :=
  if cycle_found (dfs_cycle r) then cycle_report (dfs_cycle r)
  else finished start_id visited path r.

End traversal_notions.

End Graph.
Export Graph.

(** ** parsing/python.py: the test functions of a file *)

Module PythonTests.

(** One round of the loop of [extract_test_functions_python]. *)
Definition visit_test (tests : gset string) (pn : position * node)
  : gset string :=
  match node_kind (snd pn) with
  | FunctionDef name =>
      if String.prefix "test_" name then {[name]} ∪ tests else tests
  | _ => tests
  end.

Definition module_test_functions (body : list node) : gset string :=
  foldl visit_test ∅ (walk_module body).

(** Whatever is raised while the file is read or parsed is swallowed; the
    set is still empty then. *)
Definition extract_test_functions_python (w : World) (file_path : string)
  : gset string :=
  match read_text w file_path with
  | Raise _ => ∅
  | Ok content =>
      match ast_parse w content file_path with
      | Raise _ => ∅
      | Ok body => module_test_functions body
      end
  end.

End PythonTests.
Export PythonTests.

(** ** Where a statement sits in a module *)

Module Syntax.

(** [m] is [n] or one of the nodes below it. *)
Inductive inside (m : node) : node → Prop :=
| inside_here : inside m m
| inside_child k cs c : c ∈ cs → inside m c → inside m (Node k cs).

(** The plain names an assignment statement binds. *)
Definition assigned_names (k : kind) : list string :=
  match k with
  | Assign targets => name_ids targets
  | AnnAssign target => name_ids [target]
  | _ => []
  end.

Definition defines_class (x : string) (m : node) : Prop :=
  node_kind m = ClassDef x.

Definition defines_function (x : string) (m : node) : Prop :=
  node_kind m = FunctionDef x ∨ node_kind m = AsyncFunctionDef x.

End Syntax.
Export Syntax.

(** ** What a pattern can match *)

Module Matching.

(** [matches r s s']: some way of matching [r] at the start of [s] leaves
    the suffix [s'].  The order in which the matcher tries the ways, and
    what a lookahead excludes, are left out: every match the matcher
    finds is one of these. *)
Inductive matches : regex → string → string → Prop :=
| matches_eps s : matches Eps s s
| matches_chr (p : ascii → bool) c s : p c = true → matches (Chr p) (String c s) s
| matches_seq r1 r2 s s1 s2 :
    matches r1 s s1 → matches r2 s1 s2 → matches (Seq r1 r2) s s2
| matches_alt_l r1 r2 s s' : matches r1 s s' → matches (Alt r1 r2) s s'
| matches_alt_r r1 r2 s s' : matches r2 s s' → matches (Alt r1 r2) s s'
| matches_star_nil r s : matches (Star r) s s
| matches_star_cons r s s1 s2 :
    matches r s s1 → matches (Star r) s1 s2 → matches (Star r) s s2
| matches_group r s s' : matches r s s' → matches (Group r) s s'
| matches_not_ahead r s : matches (NotAhead r) s s.

(** Every group of [r] can only capture text with the property [Q]. *)
Fixpoint groups_capture (Q : string → Prop) (r : regex) : Prop :=
  match r with
  | Eps | Chr _ => True
  | Seq r1 r2 | Alt r1 r2 => groups_capture Q r1 ∧ groups_capture Q r2
  | Star r1 | NotAhead r1 => groups_capture Q r1
  | Group r1 =>
      (∀ s s', matches r1 s s' → Q (consumed s s')) ∧ groups_capture Q r1
  end.

(** A match of [r] always passes through a group. *)
Fixpoint sets_group (r : regex) : bool :=
  match r with
  | Group _ => true
  | Seq r1 r2 => sets_group r1 || sets_group r2
  | Alt r1 r2 => sets_group r1 && sets_group r2
  | _ => false
  end.

(** The group holds text with the property [Q]. *)
Definition captured (Q : string → Prop) (cap : option string) : Prop :=
  ∃ w, cap = Some w ∧ Q w.

(** A non-empty run of letters, digits and underscores. *)
Definition is_identifier (x : string) : bool :=
  negb (String.eqb x "") && forallb is_word (chars x).

(** Text on which [\w] and [\s] of the model are those of Python. *)
Definition ascii_text (s : string) : Prop :=
  Forall (λ c, (nat_of_ascii c < 128)%nat) (chars s).

End Matching.
Export Matching.

(** ** parsing/javascript.py: the test names of a file *)

Module JavascriptTests.

Definition is_quote (c : ascii) : bool :=
  Ascii.eqb c "'" || Ascii.eqb c "034".

(** [test] or [it], an opening parenthesis, a single or double quote, a
    group of one or more characters other than the two quotes, and a
    quote; white space may surround the parenthesis. *)
Definition test_pattern : regex :=
  seq_all [Alt (lit "test") (lit "it"); Star space; lit "("; Star space;
           Chr is_quote; Group (plus (Chr (λ c, negb (is_quote c))));
           Chr is_quote].

(** Whatever is raised while the file is read is swallowed. *)
Definition extract_test_functions_javascript (w : World) (file_path : string)
  : gset string :=
  match read_text w file_path with
  | Ok content => list_to_set (findall test_pattern content)
  | Raise _ => ∅
  end.

(** A test name: not empty, and free of both quote characters. *)
Definition is_test_name (x : string) : bool :=
  negb (String.eqb x "") && forallb (λ c, negb (is_quote c)) (chars x).

End JavascriptTests.
Export JavascriptTests.

(** ** architecture.py: [validate] and [run_tests] *)

Module Commands.

(** [print(text)]: the text goes to [sys.stdout], whose encoding may lack
    some of its characters; [encodes] tells which texts it can write.
    [UnicodeEncodeError] is a [ValueError]. *)
Definition unicode_encode_error : exn :=
  mkExn ValueError "codec can't encode character".

Definition print (encodes : string → bool) (text : string) : M unit :=
  if encodes text then mret tt else lift (Raise unicode_encode_error).

Fixpoint print_each (encodes : string → bool) (texts : list string)
  : M unit :=
  match texts with
  | [] => mret tt
  | text :: texts' => _ ← print encodes text; print_each encodes texts'
  end.

Definition newline : string := String "010" "".

(** [s * n] *)
Definition times (s : string) (n : nat) : string :=
  Nat.iter n (String.append s) "".

(** How [validate] ends when nothing is raised: it returns [True], or it
    leaves through [sys.exit(1)] after printing the errors. *)
Inductive verdict : Type :=
| Validated
| Failed (errors : list string).

(** [warnings] stays empty, so its block prints nothing. *)
Definition validate (encodes : string → bool) (frames : nat)
    (a : Architecture) : M verdict :=
  _ ← print encodes "🏛️  Running Architecture Compiler...";
  _ ← print encodes (newline +:+ times "=" 60);
  errors ← validation_messages frames a;
  match errors with
  | _ :: _ =>
      _ ← print encodes (newline +:+ "❌ ARCHITECTURE FAILED:");
      _ ← print_each encodes (map (String.append "   ") errors);
      _ ← print encodes (times "=" 60);
      mret (Failed errors)
  | [] =>
      _ ← print encodes (newline +:+ "✅ ARCHITECTURE VALIDATED");
      _ ← print encodes "   All dependencies satisfied";
      _ ← print encodes "   All code files declared";
      _ ← print encodes "   All test files declared";
      _ ← print encodes (times "=" 60);
      mret Validated
  end.

(** [next((x for x in xs if x.id == node_id), None)] *)
Definition first_with_id {A} (id_of : A → string) (node_id : string)
    (xs : list A) : option A :=
  List.find (λ x, String.eqb (id_of x) node_id) xs.

(** How [run_tests] ends: with one of its two messages, or by running the
    command. *)
Inductive test_run : Type :=
| NodeNotFound (node_id : string)
| NoTestFiles (node_id : string)
| Run (cmd : list string).

Definition run_files (node_id : string) (files : list string) : test_run :=
  match files with
  | [] => NoTestFiles node_id
  | _ :: _ => Run ("pytest" :: files)
  end.

Definition run_tests (a : Architecture) (node_id : string) : test_run :=
  match first_with_id impl_id node_id (arch_implementations a) with
  | Some target => run_files node_id (test_files target)
  | None =>
      match first_with_id goal_id node_id (arch_goals a) with
      | Some target => run_files node_id [acceptance_test target]
      | None => NodeNotFound node_id
      end
  end.

End Commands.
Export Commands.

(** ** What a sound architecture is *)

Module Soundness.

Section sound.

Variable w : World.
Variable root : string.
Variable a : Architecture.




(** Every acceptance test and every declared test file exists. *)
Definition tests_present : Prop :=
  (∀ g, g ∈ arch_goals a →
     path_exists w (path_join root (acceptance_test g)) = true)
  ∧ (∀ impl f, impl ∈ arch_implementations a → f ∈ test_files impl →
       path_exists w (path_join root f) = true).



End sound.

End Soundness.
Export Soundness.

(** ** A project that passes *)

Module PassingProject.

Definition feature : Goal :=
  mkGoal "G-1" "Feature" "tests/test_app.py" "".

Definition strategy : Solution :=
  mkSolution "S-1" "Strategy" [feature] [] [] "".

Definition app_py : Implementation :=
  mkImplementation "I-1" "App" strategy ["app.py"] []
    [("app.py", ["main"])] "".

Definition passing_architecture : Architecture :=
  mkArchitecture [feature] [strategy] [app_py].

(** A directory with [app.py], which defines [main], and the test. *)
Definition passing_world : World :=
  {| set_iter := insertion_order;
     ast_parse := λ _ _, Ok [Node (FunctionDef "main") [Node OtherStmt []]];
     tree_sitter_importable := false;
     path_exists := λ p, bool_decide (p ∈ ["./app.py"; "./tests/test_app.py"]);
     read_text := λ _, Ok "def main(): pass";
     listing := λ _, [File "app.py"; Dir "tests" [File "test_app.py"];
                      File "README.md"];
     abspath_parts := λ _, [""; "home"; "project"] |}.

End PassingProject.
Export PassingProject.

(** ** Two runs of the validation *)

Module Runs.







End Runs.
Export Runs.

(** * Properties *)

(** Closed decidable side conditions. *)
Ltac decide_closed := apply (bool_decide_unpack _); vm_compute; exact I.

(** ** Constructors of nodes.py *)

Lemma py_or_default {A} (x : pyopt (list A)) :
  ∃ l, py_or x (PyVal []) = PyVal l.
Proof. destruct x as [|[|a l]]; cbn; eauto. Qed.

Lemma py_or_none {A} : py_or (@PyNone (list A)) (PyVal []) = PyVal [].
Proof. reflexivity. Qed.

Lemma py_or_not_none {A} (x : pyopt (list A)) :
  is_none (py_or x (PyVal [])) = false.
Proof. destruct (py_or_default x) as [l ->]. reflexivity. Qed.

Lemma Solution_view_init i n s r c d :
  is_Some (Solution_view (Solution_init i n s r c d)).
Proof.
  unfold Solution_view, Solution_init; cbn.
  destruct (py_or_default s) as [ls ->], (py_or_default r) as [lr ->],
    (py_or_default c) as [lc ->].
  eauto.
Qed.

Lemma Implementation_view_init i n sol c t m d :
  is_Some (Implementation_view (Implementation_init i n sol c t m d)).
Proof.
  unfold Implementation_view, Implementation_init; cbn.
  destruct (py_or_default c) as [lc ->], (py_or_default t) as [lt ->],
    (py_or_default m) as [lm ->].
  eauto.
Qed.

(** C10: after construction none of [Solution.satisfies], [.requires],
    [.constraints], [Implementation.code_files], [.test_files],
    [.must_define] is [None]; an argument that is [None] leaves an empty
    list or dict; and both objects can be read as records whose attributes
    are lists, which is how every check iterates over them. *)
Theorem constructed_attributes_never_none :
  (∀ i n s r c d,
     let o := Solution_init i n s r c d in
     is_none (so_satisfies o) = false
     ∧ is_none (so_requires o) = false
     ∧ is_none (so_constraints o) = false
     ∧ is_Some (Solution_view o))
  ∧ (∀ i n sol c t m d,
       let o := Implementation_init i n sol c t m d in
       is_none (io_code_files o) = false
       ∧ is_none (io_test_files o) = false
       ∧ is_none (io_must_define o) = false
       ∧ is_Some (Implementation_view o))
  ∧ (∀ i n d,
       Solution_view (Solution_init i n PyNone PyNone PyNone d)
       = Some (mkSolution i n [] [] [] d))
  ∧ (∀ i n sol d,
       Implementation_view (Implementation_init i n sol PyNone PyNone PyNone d)
       = Some (mkImplementation i n sol [] [] [] d)).
Proof.
  repeat split.
  - apply py_or_not_none.
  - apply py_or_not_none.
  - apply py_or_not_none.
  - apply Solution_view_init.
  - apply py_or_not_none.
  - apply py_or_not_none.
  - apply py_or_not_none.
  - apply Implementation_view_init.
Qed.

(** ** Dictionaries *)

Lemma dict_get_set {V} (k k' : string) (v : V) (d : pydict V) :
  dict_get k (dict_set k' v d)
  = if String.eqb k k' then Some v else dict_get k d.
Proof.
  induction d as [|[k0 v0] d IH]; cbn.
  - reflexivity.
  - destruct (String.eqb_spec k' k0) as [->|Hne]; cbn.
    + destruct (String.eqb k k0); reflexivity.
    + rewrite IH.
      destruct (String.eqb_spec k k0) as [->|]; [|reflexivity].
      destruct (String.eqb_spec k0 k') as [<-|]; [contradiction|reflexivity].
Qed.

Lemma dict_set_keys {V} (k : string) (v : V) (d : pydict V) :
  keys (dict_set k v d) = {[k]} ∪ keys d.
Proof.
  unfold keys. induction d as [|[k0 v0] d IH]; cbn.
  - reflexivity.
  - destruct (String.eqb_spec k k0) as [->|Hne]; cbn.
    + apply set_eq; intros x.
      rewrite !elem_of_union, !elem_of_singleton. tauto.
    + rewrite IH. apply set_eq; intros x.
      rewrite !elem_of_union, !elem_of_singleton. tauto.
Qed.

Lemma dict_get_keys {V} (k : string) (d : pydict V) :
  is_Some (dict_get k d) ↔ k ∈ keys d.
Proof.
  unfold keys. induction d as [|[k0 v0] d IH]; cbn.
  - split; [intros [? [=]]|set_solver].
  - destruct (String.eqb_spec k k0) as [->|Hne].
    + split; [set_solver|eauto].
    + rewrite IH. set_solver.
Qed.

Lemma dict_comp_snoc {A V} (key : A → string) (val : A → V) xs x :
  dict_comp key val (xs ++ [x]) = dict_set (key x) (val x) (dict_comp key val xs).
Proof. unfold dict_comp. rewrite foldl_app. reflexivity. Qed.

(** A key of a comprehension maps to the value of an element with that key. *)
Lemma dict_comp_get {A V} (key : A → string) (val : A → V) xs k v :
  dict_get k (dict_comp key val xs) = Some v →
  ∃ x, x ∈ xs ∧ key x = k ∧ val x = v.
Proof.
  induction xs as [|x xs IH] using rev_ind; [discriminate|].
  rewrite dict_comp_snoc, dict_get_set.
  destruct (String.eqb_spec k (key x)) as [->|Hne].
  - intros [= <-]. exists x. set_solver.
  - intros H. destruct (IH H) as (y & ? & ? & ?). exists y. set_solver.
Qed.

Lemma dict_comp_keys {A V} (key : A → string) (val : A → V) xs :
  keys (dict_comp key val xs) = list_to_set (map key xs).
Proof.
  induction xs as [|x xs IH] using rev_ind; [reflexivity|].
  rewrite dict_comp_snoc, dict_set_keys, IH, map_app, list_to_set_app_L.
  cbn. set_solver.
Qed.

Lemma dict_mem_keys {V} (k : string) (d : pydict V) :
  dict_mem k d = true ↔ k ∈ keys d.
Proof.
  rewrite <- dict_get_keys. unfold dict_mem.
  destruct (dict_get k d); split; eauto; intros H; try discriminate.
  destruct H as [? [=]].
Qed.

(** ** Counting occurrences *)

Lemma occurrences_app `{EqDecision A} (x : A) (l1 l2 : list A) :
  occurrences x (l1 ++ l2) = occurrences x l1 + occurrences x l2.
Proof. unfold occurrences. rewrite filter_app, length_app. reflexivity. Qed.

Lemma occurrences_cons `{EqDecision A} (x y : A) (l : list A) :
  occurrences x (y :: l) = (if decide (y = x) then 1 else 0) + occurrences x l.
Proof.
  unfold occurrences. rewrite filter_cons.
  destruct (decide (y = x)); reflexivity.
Qed.

Lemma occurrences_none `{EqDecision A} (x : A) (l : list A) :
  x ∉ l → occurrences x l = 0.
Proof.
  intros H. induction l as [|y l IH]; [reflexivity|].
  rewrite occurrences_cons, IH by set_solver.
  destruct (decide (y = x)); [set_solver|reflexivity].
Qed.

Lemma occurrences_flat_map `{EqDecision B} {A} (f : A → list B) (y : B) l :
  occurrences y (flat_map f l) = sum_list (map (λ x, occurrences y (f x)) l).
Proof.
  induction l as [|x l IH]; [reflexivity|].
  change (flat_map f (x :: l)) with (f x ++ flat_map f l).
  rewrite occurrences_app, IH. reflexivity.
Qed.

Lemma elem_of_flat_map {A B} (f : A → list B) (l : list A) (y : B) :
  y ∈ flat_map f l ↔ ∃ x, x ∈ l ∧ y ∈ f x.
Proof.
  split.
  - intros H. apply list_elem_of_In, in_flat_map in H as (x & Hx & Hy).
    exists x. rewrite !list_elem_of_In. auto.
  - intros (x & Hx & Hy). apply list_elem_of_In, in_flat_map.
    exists x. rewrite <- !list_elem_of_In. auto.
Qed.

(** ** Traceability *)

Lemma occurrences_singleton `{EqDecision A} (x y : A) :
  occurrences x [y] = if decide (y = x) then 1 else 0.
Proof. rewrite occurrences_cons. destruct (decide (y = x)); reflexivity. Qed.

Lemma solution_map_id sols k s :
  dict_get k (dict_comp sol_id (λ s, s) sols) = Some s → sol_id s = k.
Proof. intros H. apply dict_comp_get in H as (x & _ & Hk & <-). exact Hk. Qed.

Lemma unmarked_only (mk : string → error) d e :
  e ∈ unmarked mk d → ∃ k, e = mk k.
Proof.
  unfold unmarked. rewrite elem_of_flat_map. intros ([k b] & _ & H).
  destruct b; cbn in H; [set_solver|].
  exists k. set_solver.
Qed.

(** What one implementation contributes when its Solution id is [k]. *)
Lemma check_implementation_cases smap gmap impl e :
  (∀ k v, dict_get k smap = Some v → sol_id v = k) →
  e ∈ check_implementation smap gmap impl →
  (e = ImplementsUnknown (impl_id impl) (sol_id (implements impl))
   ∧ dict_get (sol_id (implements impl)) smap = None)
  ∨ (e = OrphanedSolution (sol_id (implements impl))
     ∧ ∃ s, dict_get (sol_id (implements impl)) smap = Some s
            ∧ satisfies s = [])
  ∨ (∃ s g, e = SatisfiesUnknown (sol_id (implements impl)) (goal_id g)
            ∧ dict_get (sol_id (implements impl)) smap = Some s
            ∧ g ∈ satisfies s ∧ dict_mem (goal_id g) gmap = false).
Proof.
  intros Hid. unfold check_implementation.
  destruct (dict_get (sol_id (implements impl)) smap) as [s|] eqn:Hget.
  - rewrite (Hid _ _ Hget).
    destruct (satisfies s) as [|g0 gs] eqn:Hsat.
    + intros ->%list_elem_of_singleton. right; left. eauto.
    + rewrite elem_of_flat_map. intros (g & Hg & He).
      destruct (dict_mem (goal_id g) gmap) eqn:Hmem; [set_solver|].
      apply list_elem_of_singleton in He as ->.
      right; right. exists s, g. rewrite Hsat. auto.
  - intros ->%list_elem_of_singleton. left. auto.
Qed.

Lemma check_implementation_orphaned smap gmap impl s :
  (∀ k v, dict_get k smap = Some v → sol_id v = k) →
  dict_get (sol_id s) smap = Some s →
  satisfies s = [] →
  occurrences (OrphanedSolution (sol_id s)) (check_implementation smap gmap impl)
  = if decide (sol_id (implements impl) = sol_id s) then 1 else 0.
Proof.
  intros Hid Hget Hsat.
  destruct (decide (sol_id (implements impl) = sol_id s)) as [Heq|Hne].
  - unfold check_implementation. rewrite Heq, Hget, Hsat.
    rewrite occurrences_singleton, decide_True; reflexivity.
  - apply occurrences_none. intros Hin.
    apply (check_implementation_cases _ _ _ _ Hid) in Hin
      as [[? _]|[[[= E] _]|(? & ? & ? & _)]]; congruence.
Qed.

Lemma sum_indicator_implementing k impls :
  sum_list
    (map (λ impl, if decide (sol_id (implements impl) = k) then 1 else 0) impls)
  = length (implementing k impls).
Proof.
  unfold implementing. induction impls as [|impl impls IH]; [reflexivity|].
  rewrite filter_cons. cbn [map sum_list]. rewrite IH.
  destruct (decide (sol_id (implements impl) = k)); reflexivity.
Qed.

(** C2, as the code has it: a Solution [s] with an empty [satisfies] list
    (the one its id resolves to) gets one orphaned-solution error per
    Implementation whose [implements] carries its id, none when there is no
    such Implementation, and never a dangling-Goal error. *)
Theorem orphaned_solution_once_per_implementation impls sols goals s :
  dict_get (sol_id s) (dict_comp sol_id (λ s, s) sols) = Some s →
  satisfies s = [] →
  occurrences (OrphanedSolution (sol_id s))
    (validate_traceability_errors impls sols goals)
  = length (implementing (sol_id s) impls)
  ∧ ∀ g, SatisfiesUnknown (sol_id s) g
         ∉ validate_traceability_errors impls sols goals.
Proof.
  intros Hget Hsat. unfold validate_traceability_errors. split.
  - rewrite !occurrences_app, occurrences_flat_map.
    rewrite (occurrences_none _ (unmarked OrphanedGoal _))
      by (intros [k [=]]%unmarked_only).
    rewrite (occurrences_none _ (unmarked UnimplementedSolution _))
      by (intros [k [=]]%unmarked_only).
    rewrite <- sum_indicator_implementing, !Nat.add_0_r.
    f_equal. apply map_ext. intros impl.
    apply check_implementation_orphaned; auto.
    intros k v. apply solution_map_id.
  - intros g. rewrite !elem_of_app, elem_of_flat_map.
    intros [(impl & _ & Hin)|[[k [=]]%unmarked_only|[k [=]]%unmarked_only]].
    apply check_implementation_cases in Hin
      as [[[=] _]|[[[=] _]|(s' & g' & [= Hk Hg] & Hget' & Hin' & _)]];
      [|intros k v; apply solution_map_id].
    rewrite <- Hk, Hget in Hget'. injection Hget' as <-.
    rewrite Hsat in Hin'. set_solver.
Qed.

Lemma orphaned_solution_once_per_implementation_witness :
  occurrences (OrphanedSolution "S-1")
    (validate_traceability_errors [lonely_impl "I-1"; lonely_impl "I-2"]
       [lonely_solution] [])
  = 2.
Proof.
  exact (proj1 (orphaned_solution_once_per_implementation
                  [lonely_impl "I-1"; lonely_impl "I-2"] [lonely_solution] []
                  lonely_solution eq_refl eq_refl)).
Defined.

(** C2 as stated fails: with no Implementation the orphaned Solution gets
    no orphaned-solution error at all, and with two Implementations it
    gets two. *)
Lemma orphaned_solution_not_exactly_once :
  occurrences (OrphanedSolution "S-1")
    (validate_traceability_errors [] [lonely_solution] []) = 0
  ∧ validate_traceability [] [lonely_solution] []
    = ["S-1 has no implementation (unimplemented solution)"]
  ∧ occurrences (OrphanedSolution "S-1")
      (validate_traceability_errors [lonely_impl "I-1"; lonely_impl "I-2"]
         [lonely_solution] []) = 2.
Proof. repeat split; vm_compute; reflexivity. Qed.

(** ** Dependencies: termination of the traversal *)

Lemma size_list_to_set_le (l : list string) :
  (size (list_to_set l : gset string) ≤ length l)%nat.
Proof.
  induction l as [|x l IH]; cbn.
  - rewrite size_empty. lia.
  - rewrite size_union_alt, size_singleton.
    assert (H : list_to_set l ∖ {[x]} ⊆ (list_to_set l : gset string))
      by set_solver.
    apply subseteq_size in H. lia.
Qed.

Section dfs_facts.

Variable set_iter : list string → list string.
Variable solution_map : pydict Solution.

Lemma unvisited_shrinks (k : string) (visited : gset string) :
  k ∈ keys solution_map → k ∉ visited →
  size (keys solution_map ∖ ({[k]} ∪ visited))
  < size (keys solution_map ∖ visited).
Proof.
  intros Hk Hv. apply subset_size. set_solver.
Qed.

Lemma unvisited_mono (v1 v2 : gset string) :
  v1 ⊆ v2 →
  (size (keys solution_map ∖ v2) ≤ size (keys solution_map ∖ v1))%nat.
Proof. intros H. apply subseteq_size. set_solver. Qed.

(** With more fuel than unvisited keys a call returns, and it only adds to
    [visited]. *)
Lemma has_cycle_returns fuel : ∀ start_id visited path,
  size (keys solution_map ∖ visited) < fuel →
  ∃ r, has_cycle set_iter solution_map fuel start_id visited path = Some r
       ∧ visited ⊆ dfs_visited r.
Proof.
  induction fuel as [|fuel IH]; intros start_id visited path Hfuel; [lia|].
  cbn [has_cycle].
  case_bool_decide; [eexists; split; [reflexivity|set_solver]|].
  case_bool_decide as Hvis; [eexists; split; [reflexivity|set_solver]|].
  destruct (dict_get start_id solution_map) as [sol|] eqn:Hget;
    [|eexists; split; [reflexivity|cbn; set_solver]].
  assert (Hk : start_id ∈ keys solution_map)
    by (apply dict_get_keys; eauto).
  pose proof (unvisited_shrinks _ _ Hk Hvis) as Hlt.
  assert (Hloop : ∀ reqs v p,
    {[start_id]} ∪ visited ⊆ v →
    ∃ r,
      visit_requires (has_cycle set_iter solution_map fuel) start_id reqs v p
      = Some r
      ∧ visited ⊆ dfs_visited r).
  { induction reqs as [|req reqs IHreqs]; intros v p Hv; cbn [visit_requires].
    - eexists; split; [reflexivity|cbn; set_solver].
    - destruct (IH req v p) as (r & -> & Hr).
      { pose proof (unvisited_mono _ _ Hv). lia. }
      destruct (cycle_found (dfs_cycle r)).
      + exists r; split; [reflexivity|set_solver].
      + apply IHreqs. set_solver. }
  apply Hloop. set_solver.
Qed.

Lemma scan_roots_returns fuel roots : ∀ visited,
  size (keys solution_map) < fuel →
  is_Some (scan_roots set_iter solution_map fuel roots visited).
Proof.
  induction roots as [|root roots IH]; intros visited Hfuel; cbn; [eauto|].
  case_bool_decide; [auto|].
  destruct (has_cycle_returns fuel root visited []) as (r & -> & _).
  { assert (H' : keys solution_map ∖ visited ⊆ keys solution_map)
      by set_solver.
    apply subseteq_size in H'. lia. }
  destruct (IH (dfs_visited r) Hfuel) as [errs ->]. eauto.
Qed.

End dfs_facts.

(** The fuel [validate_dependencies] gives the traversal is enough: the
    check always returns its error list. *)
Lemma validate_dependencies_run_total set_iter solutions :
  validate_dependencies_run set_iter solutions
  = Some (validate_dependencies_errors set_iter solutions).
Proof.
  unfold validate_dependencies_errors, validate_dependencies_run.
  destruct (scan_roots_returns set_iter
              (dict_comp sol_id (λ s, s) solutions) (dfs_fuel solutions)
              (map sol_id solutions) ∅) as [errs ->]; [|reflexivity].
  rewrite dict_comp_keys. unfold dfs_fuel.
  pose proof (size_list_to_set_le (map sol_id solutions)) as H.
  rewrite length_map in H. lia.
Qed.

(** ** Dependencies: what is reported for a cycle *)

Lemma string_app_assoc (s1 s2 s3 : string) :
  (s1 +:+ s2) +:+ s3 = s1 +:+ (s2 +:+ s3).
Proof.
  induction s1 as [|c s1 IH]; [reflexivity|].
  change (String c ((s1 +:+ s2) +:+ s3) = String c (s1 +:+ (s2 +:+ s3))).
  rewrite IH. reflexivity.
Qed.

Lemma string_app_empty_r (s : string) : s +:+ "" = s.
Proof.
  induction s as [|c s IH]; [reflexivity|].
  change (String c (s +:+ "") = String c s).
  rewrite IH. reflexivity.
Qed.

Lemma contains_prefixed (p s sub : string) :
  contains s sub → contains (p +:+ s) sub.
Proof.
  intros (b & a & ->). exists (p +:+ b), a.
  rewrite string_app_assoc. reflexivity.
Qed.

Lemma contains_suffixed (p s sub : string) :
  contains s sub → contains (s +:+ p) sub.
Proof.
  intros (b & a & ->). exists b, (a +:+ p).
  rewrite !string_app_assoc. reflexivity.
Qed.

Lemma contains_self (s : string) : contains s s.
Proof.
  exists "", "". change ("" +:+ s +:+ "") with (s +:+ "").
  rewrite string_app_empty_r. reflexivity.
Qed.

(** Every element of a joined list occurs in the joined text. *)
Lemma contains_concat (sep x : string) (l : list string) :
  x ∈ l → contains (String.concat sep l) x.
Proof.
  induction l as [|y l IH]; [set_solver|].
  intros Hin. cbn [String.concat].
  destruct l as [|z l].
  - apply list_elem_of_singleton in Hin as ->. apply contains_self.
  - apply elem_of_cons in Hin as [->|Hin].
    + apply contains_suffixed, contains_self.
    + apply contains_prefixed, contains_prefixed, IH, Hin.
Qed.

Lemma contains_cycle_message (cycle : list string) (x : string) :
  x ∈ cycle → contains (message (CircularDependency cycle)) x.
Proof. intros H. apply contains_prefixed, contains_concat, H. Qed.

Section cycle_facts.

Variable set_iter : list string → list string.
Variable solution_map : pydict Solution.

Lemma has_cycle_revisit fuel start_id visited path :
  start_id ∈ path →
  has_cycle set_iter solution_map (S fuel) start_id visited path
  = Some (mkDfs (Some (set_iter path ++ [start_id])) visited path).
Proof. intros H. cbn [has_cycle]. rewrite bool_decide_eq_true_2; auto. Qed.

Lemma has_cycle_enter fuel start_id visited path sol :
  start_id ∉ path →
  start_id ∉ visited →
  dict_get start_id solution_map = Some sol →
  has_cycle set_iter solution_map (S fuel) start_id visited path
  = visit_requires (has_cycle set_iter solution_map fuel) start_id
      (requires sol) ({[start_id]} ∪ visited) (path ++ [start_id]).
Proof.
  intros Hp Hv Hget. cbn [has_cycle]. unfold pyset_add.
  rewrite !(bool_decide_eq_false_2 (start_id ∈ path)) by auto.
  rewrite bool_decide_eq_false_2 by auto.
  rewrite Hget. reflexivity.
Qed.

Lemma cycle_found_snoc (l : list string) (x : string) :
  cycle_found (Some (l ++ [x])) = true.
Proof. destruct l; reflexivity. Qed.

Lemma cycle_error_snoc (l : list string) (x : string) :
  cycle_error (Some (l ++ [x])) = [CircularDependency (l ++ [x])].
Proof. destruct l; reflexivity. Qed.

(** A requirement that is already on the path ends the call at once. *)
Lemma visit_requires_revisit fuel start_id req reqs visited path :
  req ∈ path →
  visit_requires (has_cycle set_iter solution_map (S fuel)) start_id
    (req :: reqs) visited path
  = Some (mkDfs (Some (set_iter path ++ [req])) visited path).
Proof.
  intros H. cbn [visit_requires]. rewrite has_cycle_revisit by auto.
  cbn [dfs_cycle]. rewrite cycle_found_snoc. reflexivity.
Qed.

End cycle_facts.

Lemma two_cycle_first set_iter (A B : Solution) :
  requires A = [sol_id B] →
  requires B = [sol_id A] →
  ∃ path,
    validate_dependencies_errors set_iter [A; B]
    = [CircularDependency (set_iter path ++ [sol_id A])]
    ∧ sol_id A ∈ path ∧ sol_id B ∈ path.
Proof.
  intros HA HB.
  unfold validate_dependencies_errors, validate_dependencies_run,
    missing_requires, dfs_fuel, dict_mem.
  cbn [length map flat_map app].
  rewrite HA, HB. cbn [flat_map app].
  set (smap := dict_comp sol_id (λ s, s) [A; B]).
  assert (HgetB : dict_get (sol_id B) smap = Some B).
  { subst smap. change [A; B] with ([A] ++ [B]).
    rewrite dict_comp_snoc, dict_get_set.
    rewrite String.eqb_refl. reflexivity. }
  destruct (decide (sol_id A = sol_id B)) as [Heq|Hne].
  - exists [sol_id A].
    assert (HgetA : dict_get (sol_id A) smap = Some B)
      by (rewrite Heq; exact HgetB).
    rewrite <- Heq in *. rewrite HgetA. cbn [app].
    cbn [scan_roots]. rewrite bool_decide_eq_false_2 by set_solver.
    rewrite (has_cycle_enter _ _ _ _ _ _ B) by (auto; set_solver).
    rewrite HB. cbn [app].
    rewrite visit_requires_revisit by set_solver.
    cbn [dfs_visited dfs_cycle].
    rewrite bool_decide_eq_true_2 by set_solver.
    rewrite cycle_error_snoc. cbn. split; [reflexivity|set_solver].
  - exists [sol_id A; sol_id B].
    assert (HgetA : dict_get (sol_id A) smap = Some A).
    { subst smap. change [A; B] with ([A] ++ [B]).
    rewrite dict_comp_snoc, dict_get_set.
      destruct (String.eqb_spec (sol_id A) (sol_id B)); [contradiction|].
      change (dict_comp sol_id (λ s, s) [A]) with [(sol_id A, A)].
      cbn. rewrite String.eqb_refl. reflexivity. }
    rewrite HgetA, HgetB. cbn [app].
    cbn [scan_roots]. rewrite bool_decide_eq_false_2 by set_solver.
    rewrite (has_cycle_enter _ _ _ _ _ _ A) by (auto; set_solver).
    rewrite HA. cbn [app visit_requires].
    rewrite (has_cycle_enter _ _ _ _ _ _ B) by (auto; set_solver).
    rewrite HB. cbn [app].
    rewrite visit_requires_revisit by set_solver.
    cbn [dfs_visited dfs_cycle]. rewrite cycle_found_snoc.
    cbn [dfs_visited dfs_cycle].
    rewrite bool_decide_eq_true_2 by set_solver.
    rewrite cycle_error_snoc. cbn. split; [reflexivity|set_solver].
Qed.

Lemma elem_of_set_iter set_iter (path : list string) (x : string) :
  (∀ l : list string, set_iter l ≡ₚ l) → x ∈ path → x ∈ set_iter path.
Proof. intros Hperm Hin. rewrite (Hperm path). exact Hin. Qed.

(** C6: two Solutions that require each other yield exactly one error, a
    circular-dependency error whose text contains the ids of both,
    whichever of the two comes first in the input list. *)
Theorem two_cycle_reported_once set_iter (A B : Solution) solutions :
  (∀ l : list string, set_iter l ≡ₚ l) →
  requires A = [sol_id B] →
  requires B = [sol_id A] →
  solutions = [A; B] ∨ solutions = [B; A] →
  ∃ cycle,
    validate_dependencies_run set_iter solutions
    = Some [CircularDependency cycle]
    ∧ validate_dependencies set_iter solutions
      = [message (CircularDependency cycle)]
    ∧ contains (message (CircularDependency cycle)) (sol_id A)
    ∧ contains (message (CircularDependency cycle)) (sol_id B).
Proof.
  intros Hperm HA HB Horder.
  assert (∃ path x,
            validate_dependencies_errors set_iter solutions
            = [CircularDependency (set_iter path ++ [x])]
            ∧ sol_id A ∈ path ∧ sol_id B ∈ path)
    as (path & x & Herrs & HinA & HinB).
  { destruct Horder as [-> | ->].
    - destruct (two_cycle_first set_iter A B HA HB) as (path & ? & ? & ?).
      eauto 6.
    - destruct (two_cycle_first set_iter B A HB HA) as (path & ? & ? & ?).
      eauto 6. }
  exists (set_iter path ++ [x]).
  rewrite validate_dependencies_run_total. unfold validate_dependencies.
  rewrite Herrs. repeat split.
  - apply contains_cycle_message, elem_of_app. left.
    apply elem_of_set_iter; assumption.
  - apply contains_cycle_message, elem_of_app. left.
    apply elem_of_set_iter; assumption.
Qed.

Lemma two_cycle_reported_once_witness :
  ∃ cycle,
    validate_dependencies_run reverse_order [mutual_b; mutual_a]
    = Some [CircularDependency cycle]
    ∧ validate_dependencies reverse_order [mutual_b; mutual_a]
      = [message (CircularDependency cycle)]
    ∧ contains (message (CircularDependency cycle)) "S-1"
    ∧ contains (message (CircularDependency cycle)) "S-2".
Proof.
  apply (two_cycle_reported_once reverse_order mutual_a mutual_b).
  - intros l. apply reverse_Permutation.
  - reflexivity.
  - reflexivity.
  - right. reflexivity.
Defined.

(** The traversal of A → B → C → B from the root A. *)
Lemma tail_into_loop_dfs set_iter :
  scan_roots set_iter (dict_comp sol_id (λ s, s) tail_into_loop)
    (dfs_fuel tail_into_loop) (map sol_id tail_into_loop) ∅
  = Some [CircularDependency (set_iter ["A"; "B"; "C"] ++ ["B"])].
Proof.
  set (smap := dict_comp _ _ _).
  assert (Hcall :
    has_cycle set_iter smap 4 "A" ∅ []
    = Some (mkDfs (Some (set_iter ["A"; "B"; "C"] ++ ["B"]))
              ({["C"]} ∪ ({["B"]} ∪ ({["A"]} ∪ ∅))) ["A"; "B"; "C"])).
  { erewrite has_cycle_enter; [|set_solver|set_solver|reflexivity].
    cbn [requires visit_requires app].
    erewrite has_cycle_enter; [|set_solver|set_solver|reflexivity].
    cbn [requires visit_requires app].
    erewrite has_cycle_enter; [|set_solver|set_solver|reflexivity].
    cbn [requires app].
    rewrite visit_requires_revisit by set_solver.
    repeat (cbn [dfs_cycle]; rewrite cycle_found_snoc). reflexivity. }
  unfold tail_into_loop, dfs_fuel. cbn [map sol_id length scan_roots].
  rewrite bool_decide_eq_false_2 by set_solver.
  fold tail_into_loop. fold smap. rewrite Hcall.
  cbn [dfs_cycle dfs_visited].
  rewrite !bool_decide_eq_true_2 by set_solver.
  rewrite cycle_error_snoc. reflexivity.
Qed.

(** C1, at a cycle that is entered from outside: for A → B → C → B the
    reported sequence is the whole current path, listed in the iteration
    order of the set that holds it, followed by the revisited node.  It has
    four entries and names A, so it is not the cycle B → C → B; and for a
    two-node cycle a reversed iteration order gives the text
    "B → A → A". *)
Theorem cycle_report_lists_whole_path set_iter :
  (∀ l : list string, set_iter l ≡ₚ l) →
  validate_dependencies_run set_iter tail_into_loop
  = Some [CircularDependency (set_iter ["A"; "B"; "C"] ++ ["B"])]
  ∧ length (set_iter ["A"; "B"; "C"] ++ ["B"]) = 4
  ∧ "A" ∈ set_iter ["A"; "B"; "C"] ++ ["B"]
  ∧ set_iter ["A"; "B"; "C"] ++ ["B"] ≠ ["B"; "C"; "B"]
  ∧ validate_dependencies reverse_order
      [mkSolution "A" "" [] ["B"] [] ""; mkSolution "B" "" [] ["A"] [] ""]
    = ["Circular dependency detected: B → A → A"].
Proof.
  intros Hperm.
  assert (Hlen : length (set_iter ["A"; "B"; "C"] ++ ["B"]) = 4).
  { rewrite length_app, (Hperm ["A"; "B"; "C"]). reflexivity. }
  split; [|split; [exact Hlen|split; [|split]]].
  - unfold validate_dependencies_run.
    rewrite (tail_into_loop_dfs set_iter).
    replace (missing_requires _ _) with (@nil error)
      by (vm_compute; reflexivity).
    reflexivity.
  - apply elem_of_app. left. apply elem_of_set_iter; [assumption|set_solver].
  - intros Heq. rewrite Heq in Hlen. discriminate.
  - vm_compute. reflexivity.
Qed.

Lemma cycle_report_lists_whole_path_witness :
  validate_dependencies_run insertion_order tail_into_loop
  = Some [CircularDependency ["A"; "B"; "C"; "B"]].
Proof.
  exact (proj1 (cycle_report_lists_whole_path insertion_order
                  (λ l, Permutation_refl l))).
Defined.

(** The text of a cycle error follows the iteration order of the set: two
    runtimes that iterate the same set differently print different texts. *)
Lemma cycle_text_follows_set_order :
  validate_dependencies insertion_order [mutual_a; mutual_b]
  = ["Circular dependency detected: S-1 → S-2 → S-1"]
  ∧ validate_dependencies reverse_order [mutual_a; mutual_b]
    = ["Circular dependency detected: S-2 → S-1 → S-1"].
Proof. split; vm_compute; reflexivity. Qed.

(** ** The Python extractor *)

Lemma node_nested_ind (P : node → Prop) :
  (∀ k cs, Forall P cs → P (Node k cs)) → ∀ n, P n.
Proof.
  intros HN. fix IH 1. intros [k cs]. apply HN.
  induction cs as [|c cs IHcs]; constructor; [apply IH|exact IHcs].
Qed.

(** Every position [ast.walk] reaches from a node extends the position of
    that node. *)
Lemma walk_positions n : ∀ p q m, (q, m) ∈ walk p n → p `prefix_of` q.
Proof.
  induction n as [k cs IH] using node_nested_ind. intros p q m.
  cbn [walk]. rewrite elem_of_cons. intros [[= -> _]|Hin]; [reflexivity|].
  revert Hin. generalize 0 as i.
  induction cs as [|c cs IHcs]; intros i Hin; [set_solver|].
  apply Forall_cons in IH as [Hc Hcs].
  apply elem_of_app in Hin as [Hin|Hin].
  - apply Hc in Hin. etransitivity; [|exact Hin]. apply prefix_app_r. reflexivity.
  - exact (IHcs Hcs _ Hin).
Qed.

Lemma elem_of_module_body body pos n :
  (pos, n) ∈ module_body body ↔ ∃ i, pos = [i] ∧ body !! i = Some n.
Proof.
  unfold module_body. rewrite elem_of_lookup_imap. split.
  - intros (i & x & [= -> ->] & Hx). eauto.
  - intros (i & -> & Hx). eauto.
Qed.

(** The flag [is_top_level] of a node depends only on the statement of the
    module body that contains it: the flag is set when the node is that
    statement itself or when that statement is not a definition, whatever
    lies between the two. *)
Lemma is_top_level_outermost body i top rest :
  body !! i = Some top →
  (i :: rest) ∈ (walk [i] top).*1 →
  is_top_level body (i :: rest)
  = bool_decide (rest = []) || negb (is_definition (node_kind top)).
Proof.
  intros Htop Hin. unfold is_top_level.
  erewrite (bool_decide_ext (_ ∈ _) (rest = [])).
  2: { rewrite list_elem_of_fmap. split.
    - intros ([pos n] & Hp & [j [[= ->] _]]%elem_of_module_body).
      cbn in Hp. congruence.
    - intros ->. exists ([i], top). split; [reflexivity|].
      apply elem_of_module_body. eauto. }
  destruct (bool_decide (rest = [])); [reflexivity|]. cbn [orb].
  apply eq_true_iff_eq. rewrite existsb_exists. split.
  - intros ([pos parent] & Hp%list_elem_of_In & Hb). cbn [fst snd] in Hb.
    apply andb_prop in Hb as [Hw Hdef].
    apply elem_of_module_body in Hp as (j & -> & Hj).
    apply bool_decide_eq_true, list_elem_of_fmap in Hw as ([q m] & Hq & Hw).
    cbn in Hq. subst q. apply walk_positions in Hw as [tail Htail].
    injection Htail as -> _. congruence.
  - intros Hdef. exists ([i], top). split.
    + apply list_elem_of_In, elem_of_module_body. eauto.
    + cbn [fst snd]. rewrite bool_decide_eq_true_2 by exact Hin. exact Hdef.
Qed.

(** The module of [test_basic_validation]: its class, function and global
    are found, each in its set. *)
Lemma basic_test_module_symbols :
  classes (module_symbols basic_test_py) = {["ExampleClass"]}
  ∧ functions (module_symbols basic_test_py) = {["example_function"]}
  ∧ globals (module_symbols basic_test_py) = {["GLOBAL_VAR"]}.
Proof. repeat split; vm_compute; reflexivity. Qed.

(** C4, at a function defined inside a top-level [if]: the assignment in
    the body of [f] is counted as a global, because the statement of the
    module body that contains it is the [if], not a definition.  The same
    function defined at the top of the module contributes nothing to
    [globals]. *)
Theorem assignment_in_guarded_function_is_global w path content :
  read_text w path = Ok content →
  ast_parse w content path = Ok guarded_function →
  ∃ syms,
    extract_python_symbols w path = Ok syms
    ∧ "x" ∈ globals syms
    ∧ functions syms = {["f"]}
    ∧ globals (module_symbols plain_function) = ∅.
Proof.
  intros Hread Hparse. unfold extract_python_symbols.
  rewrite Hread, Hparse. eexists. split; [reflexivity|].
  split; [|split].
  - vm_compute. set_solver.
  - vm_compute. reflexivity.
  - vm_compute. reflexivity.
Qed.

Lemma assignment_in_guarded_function_is_global_witness :
  ∃ syms,
    extract_python_symbols
      (one_file_world "m.py" "if True: ..." guarded_function) "m.py" = Ok syms
    ∧ "x" ∈ globals syms
    ∧ functions syms = {["f"]}
    ∧ globals (module_symbols plain_function) = ∅.
Proof.
  apply (assignment_in_guarded_function_is_global _ "m.py" "if True: ...");
    reflexivity.
Defined.

(** ** The JavaScript extractor *)

(** What [symbols["functions"]] holds at the end: methods and functions
    found by the patterns, whatever [module.exports] is assigned. *)
Lemma returned_functions content :
  functions (returned_symbols (run_regex_parser content))
  = list_to_set
      (flat_map (class_methods content)
         (elements (list_to_set (findall class_pattern content) : gset string)))
    ∪ list_to_set (find_all_of function_patterns content).
Proof.
  unfold run_regex_parser, returned_symbols, step_publish_globals,
    step_exports, step_globals, step_publish_functions, step_functions,
    step_methods, step_classes, fresh_sets.
  cbn [functions symbols_functions local_functions local_classes].
  rewrite !(left_id_L ∅ (∪)). reflexivity.
Qed.

(** The keys of the export literal only reach the local set. *)
Lemma exported_only_local content x :
  x ∈ exported content → x ∈ local_functions (run_regex_parser content).
Proof.
  intros Hx.
  unfold run_regex_parser, step_publish_globals, step_exports.
  cbn [local_functions]. apply elem_of_union. right.
  apply elem_of_list_to_set, Hx.
Qed.

(** The assertions of [test_regex_fallback_parsing] hold of the model; the
    key of the export literal is missing from [functions]. *)
Lemma regex_fallback_test_file :
  let syms := returned_symbols (run_regex_parser regex_test_js) in
  classes syms = {["MyClass"]}
  ∧ {["standaloneFunction"; "arrowFunction"; "asyncFunction"]} ⊆ functions syms
  ∧ "GLOBAL_CONST" ∈ globals syms
  ∧ exported regex_test_js = ["exportedFunction"]
  ∧ "exportedFunction" ∉ functions syms.
Proof.
  cbv zeta. repeat split; try (vm_compute; reflexivity); decide_closed.
Qed.

(** C3, at a file that assigns an object literal to [module.exports]: the
    key [foo] of the literal is found by the export pattern and added to
    the local set [functions], but the returned [functions] set was filled
    before that and does not contain it. *)
Theorem exported_keys_not_returned w path :
  read_text w path = Ok exports_js →
  ∃ syms,
    extract_javascript_symbols w path = Ok syms
    ∧ exported exports_js = ["foo"]
    ∧ "foo" ∈ local_functions (run_regex_parser exports_js)
    ∧ ("foo" ∉ functions syms)
    ∧ functions syms = ∅.
Proof.
  intros Hread.
  assert (Hexp : exported exports_js = ["foo"]) by (vm_compute; reflexivity).
  assert (Hfun : functions (returned_symbols (run_regex_parser exports_js)) = ∅)
    by (vm_compute; reflexivity).
  exists (returned_symbols (run_regex_parser exports_js)).
  split; [|split; [exact Hexp|split; [|split; [|exact Hfun]]]].
  - unfold extract_javascript_symbols, _parse_with_treesitter,
      _init_treesitter_parser, _parse_javascript_with_regex.
    rewrite Hread.
    destruct (tree_sitter_importable w); [case_bool_decide|]; reflexivity.
  - apply exported_only_local. rewrite Hexp. set_solver.
  - rewrite Hfun. set_solver.
Qed.

Lemma exported_keys_not_returned_witness :
  ∃ syms,
    extract_javascript_symbols (one_file_world "lib.js" exports_js []) "lib.js"
    = Ok syms
    ∧ exported exports_js = ["foo"]
    ∧ "foo" ∈ local_functions (run_regex_parser exports_js)
    ∧ ("foo" ∉ functions syms)
    ∧ functions syms = ∅.
Proof.
  apply (exported_keys_not_returned (one_file_world "lib.js" exports_js [])).
  reflexivity.
Defined.

(** ** The monad of the engine *)

Lemma state_eta (s : State) : mkState (world s) (trace s) = s.
Proof. destruct s; reflexivity. Qed.

Lemma returns_ret {A} (a : A) : returns (mret a) (λ _, (a, [])).
Proof. intros s. cbn. rewrite app_nil_r, state_eta. reflexivity. Qed.

Lemma returns_bind {A B} (m : M A) (k : A → M B) f g :
  returns m f →
  (∀ a, returns (k a) (g a)) →
  returns (m ≫= k)
    (λ w, ((g (f w).1 w).1, (f w).2 ++ (g (f w).1 w).2)).
Proof.
  intros Hm Hk s. unfold mbind, M_bind. rewrite (Hm s).
  rewrite (Hk _ _). cbn. rewrite app_assoc. reflexivity.
Qed.

Lemma returns_ext {A} (m : M A) f g :
  returns m f → (∀ w, f w = g w) → returns m g.
Proof. intros Hm Hfg s. rewrite <- Hfg. apply Hm. Qed.

Lemma returns_get_world : returns get_world (λ w, (w, [])).
Proof. intros s. unfold get_world. cbn. rewrite app_nil_r, state_eta. reflexivity. Qed.

Lemma returns_log ev : returns (log ev) (λ _, (tt, [ev])).
Proof. intros s. reflexivity. Qed.

Lemma returns_for_each {A E} (xs : list A) (body : A → M (list E)) f :
  (∀ x, returns (body x) (f x)) →
  returns (for_each xs body)
    (λ w, (flat_map (λ x, (f x w).1) xs, flat_map (λ x, (f x w).2) xs)).
Proof.
  intros Hbody. induction xs as [|x xs IH]; cbn [for_each flat_map].
  - apply returns_ret.
  - eapply returns_ext.
    + eapply returns_bind; [apply Hbody|]. intros errs.
      eapply returns_bind; [apply IH|]. intros rest. apply returns_ret.
    + intros w. cbn. rewrite app_nil_r. reflexivity.
Qed.

(** A computation that returns is determined by the world and leaves it. *)
Lemma returns_reads_only {A} (m : M A) f : returns m f → reads_only m.
Proof.
  intros Hm s. rewrite (Hm s). split; [reflexivity|].
  intros s2 Hw. rewrite (Hm s2), Hw. reflexivity.
Qed.

(** ** The extractors raise nothing but [ValueError] *)

Lemma extract_python_symbols_raises w path e :
  extract_python_symbols w path = Raise e → exn_kind e = ValueError.
Proof.
  unfold extract_python_symbols, as_value_error.
  destruct (read_text w path) as [content|e1].
  - destruct (ast_parse w content path) as [body|e2]; [discriminate|].
    intros [= <-]. destruct (exn_kind e2); reflexivity.
  - intros [= <-]. destruct (exn_kind e1); reflexivity.
Qed.

Lemma extract_javascript_symbols_raises w path e :
  extract_javascript_symbols w path = Raise e → exn_kind e = ValueError.
Proof.
  unfold extract_javascript_symbols, _parse_with_treesitter,
    _parse_javascript_with_regex.
  destruct (_init_treesitter_parser w _);
    (destruct (read_text w path); [discriminate|]);
    intros [= <-]; reflexivity.
Qed.


(** ** Code inventory: the top-down pass *)

Lemma check_code_file_returns root impl file :
  returns (check_code_file root impl file)
    (λ w, code_file_outcome w root impl file).
Proof.
  intros s. unfold check_code_file, code_file_outcome.
  unfold mbind at 1, M_bind at 1, get_world. cbn [fst snd].
  destruct (path_exists (world s) (path_join root file)); cbn [negb].
  2: { apply returns_ret. }
  destruct (dict_get file (must_define impl)) as [required|].
  2: { apply returns_ret. }
  unfold try_except_ValueError, extract_and_compare, extraction.
  destruct (String.eqb (lower (splitext_ext file)) ".py").
  - unfold mbind, M_bind, log, get_world, lift, mret, M_ret. cbn.
    destruct (extract_python_symbols (world s) (path_join root file))
      as [actual|e] eqn:Hx; cbn.
    + reflexivity.
    + rewrite (extract_python_symbols_raises _ _ _ Hx). reflexivity.
  - case_bool_decide.
    + unfold mbind, M_bind, log, get_world, lift, mret, M_ret. cbn.
      destruct (extract_javascript_symbols (world s) (path_join root file))
        as [actual|e] eqn:Hx; cbn.
      * reflexivity.
      * rewrite (extract_javascript_symbols_raises _ _ _ Hx). reflexivity.
    + cbn. rewrite app_nil_r, state_eta. reflexivity.
Qed.

Lemma flat_map_flat_map {A B C} (f : A → list B) (g : B → list C) l :
  flat_map g (flat_map f l) = flat_map (λ x, flat_map g (f x)) l.
Proof.
  induction l as [|x l IH]; [reflexivity|].
  cbn. rewrite flat_map_app, IH. reflexivity.
Qed.

Lemma flat_map_map {A B C} (f : A → B) (g : B → list C) l :
  flat_map g (map f l) = flat_map (λ x, g (f x)) l.
Proof. induction l as [|x l IH]; [reflexivity|]. cbn. rewrite IH. reflexivity. Qed.

Lemma top_down_returns root impls :
  returns (top_down root impls) (λ w, top_down_outcome w root impls).
Proof.
  unfold top_down. eapply returns_ext.
  - apply returns_for_each. intros impl.
    apply returns_for_each. intros file. apply check_code_file_returns.
  - intros w. unfold top_down_outcome, declared_code_files. cbn [fst snd].
    rewrite !flat_map_flat_map. f_equal.
    + apply flat_map_ext. intros impl. rewrite flat_map_map. reflexivity.
    + apply flat_map_ext. intros impl. rewrite flat_map_map. reflexivity.
Qed.

Lemma validate_code_inventory_errors_returns impls goals root :
  returns (validate_code_inventory_errors impls goals root)
    (λ w, ((top_down_outcome w root impls).1
           ++ bottom_up w root (declared_files impls)
                (declared_test_files impls goals),
           (top_down_outcome w root impls).2)).
Proof.
  unfold validate_code_inventory_errors. eapply returns_ext.
  - eapply returns_bind; [apply top_down_returns|]. intros top.
    eapply returns_bind; [apply returns_get_world|]. intros w.
    apply returns_ret.
  - intros w. cbn. rewrite !app_nil_r. reflexivity.
Qed.


Lemma report_missing_only impl file required actual e :
  e ∈ report_missing impl file required actual →
  ∃ missing, e = MissingSymbols (impl_id impl) file missing.
Proof.
  unfold report_missing. destruct (merge_sort _ _); [set_solver|].
  intros ->%list_elem_of_singleton. eauto.
Qed.

(** The top-down pass never reports a file as undeclared. *)
Lemma top_down_not_undeclared w root impls rel :
  UndeclaredFile rel ∉ (top_down_outcome w root impls).1.
Proof.
  unfold top_down_outcome. cbn [fst]. rewrite elem_of_flat_map.
  intros ([impl file] & _ & Hin). revert Hin.
  unfold code_file_outcome. cbn [fst snd].
  destruct (path_exists w _); cbn [negb]; [|set_solver].
  destruct (dict_get file _) as [required|]; [|set_solver].
  destruct (extraction w file _) as [[ev [actual|e]]|]; cbn [fst].
  - intros [missing [=]]%report_missing_only.
  - set_solver.
  - set_solver.
Qed.

(** What the bottom-up pass reports is undeclared. *)
Lemma bottom_up_only w root declared declared_tests e :
  e ∈ bottom_up w root declared declared_tests →
  ∃ rel, e = UndeclaredFile rel ∧ (rel ∉ declared) ∧ (rel ∉ declared_tests).
Proof.
  unfold bottom_up. rewrite elem_of_flat_map.
  intros ([pre files] & _ & Hin). cbn [fst snd] in Hin.
  apply elem_of_flat_map in Hin as (file & _ & Hin). revert Hin.
  unfold scan_file.
  case_bool_decide; [|set_solver].
  destruct (_ || _ || _); [set_solver|].
  case_bool_decide as Hd; cbn [andb]; [|set_solver].
  case_bool_decide as Ht; [|set_solver].
  intros ->%list_elem_of_singleton. eauto.
Qed.


(** C9: with the goals supplied, no acceptance-test path of a Goal is
    reported as an undeclared code file. *)
Theorem acceptance_tests_count_as_declared impls goals root s g :
  g ∈ goals →
  ∃ errs s',
    validate_code_inventory_errors impls (Some goals) root s = (Ok errs, s')
    ∧ acceptance_test g ∈ declared_test_files impls (Some goals)
    ∧ UndeclaredFile (acceptance_test g) ∉ errs.
Proof.
  intros Hg.
  assert (Hdecl : acceptance_test g ∈ declared_test_files impls (Some goals)).
  { unfold declared_test_files. apply elem_of_union. right.
    destruct goals as [|g0 gs]; [set_solver|].
    apply elem_of_list_to_set, list_elem_of_fmap. eauto. }
  pose proof (validate_code_inventory_errors_returns impls (Some goals) root s)
    as Hrun.
  eexists _, _. split; [exact Hrun|]. split; [exact Hdecl|].
  cbn [fst]. rewrite elem_of_app. intros [Htop|Hbottom].
  - exact (top_down_not_undeclared _ _ _ _ Htop).
  - apply bottom_up_only in Hbottom as (rel & [= <-] & _ & Hnot). auto.
Qed.

(** ** Paths and their segments *)










(** ** Code inventory: the bottom-up pass *)

Lemma entry_nested_ind (P : entry → Prop) :
  (∀ n, P (File n)) →
  (∀ d cs, Forall P cs → P (Dir d cs)) →
  ∀ e, P e.
Proof.
  intros HF HD. fix IH 1. intros [n|d cs]; [apply HF|].
  apply HD. induction cs as [|c cs IHcs]; constructor; [apply IH|exact IHcs].
Qed.







Section bottom_up_facts.

Variable w : World.
Variable root_dir : string.
Variables declared declared_tests : gset string.

Abbreviation scan := (scan_file w root_dir declared declared_tests).
Abbreviation items_errors :=
  (scan_items w root_dir declared declared_tests).


Lemma items_errors_cons pre files items :
  items_errors ((pre, files) :: items)
  = flat_map (scan pre) files ++ items_errors items.
Proof. reflexivity. Qed.

Lemma items_errors_flat_map {A} (f : A → list (list string * list string)) l :
  items_errors (flat_map f l) = flat_map (λ x, items_errors (f x)) l.
Proof. apply flat_map_flat_map. Qed.


End bottom_up_facts.

Section reported_once.

Variable w : World.
Variable root_dir : string.
Variables declared declared_tests : gset string.

Abbreviation scan := (scan_file w root_dir declared declared_tests).
Abbreviation items_errors :=
  (scan_items w root_dir declared declared_tests).







End reported_once.

Lemma bottom_up_items w root declared declared_tests :
  bottom_up w root declared declared_tests
  = scan_items w root declared declared_tests
      (([], file_names (listing w root))
       :: flat_map (os_walk_entry kept []) (listing w root)).
Proof. reflexivity. Qed.





Lemma acceptance_tests_count_as_declared_witness :
  ∃ errs s',
    validate_code_inventory_errors [] (Some [goal_tested_by_y]) "."
      (start_of project_world) = (Ok errs, s')
    ∧ acceptance_test goal_tested_by_y
      ∈ declared_test_files [] (Some [goal_tested_by_y])
    ∧ UndeclaredFile (acceptance_test goal_tested_by_y) ∉ errs.
Proof.
  apply (acceptance_tests_count_as_declared [] [goal_tested_by_y] "."
           (start_of project_world) goal_tested_by_y).
  apply list_elem_of_singleton. reflexivity.
Defined.

(** * Further properties *)

(** ** Marking dictionaries *)

Lemma dict_set_fst {V} (k : string) (v : V) (d : pydict V) :
  (dict_set k v d).*1 = if dict_mem k d then d.*1 else d.*1 ++ [k].
Proof.
  unfold dict_mem. induction d as [|[k0 v0] d IH]; cbn; [reflexivity|].
  destruct (String.eqb k k0); cbn; [reflexivity|].
  rewrite IH. destruct (dict_get k d); reflexivity.
Qed.

Lemma dict_mem_fst {V} (k : string) (d : pydict V) :
  dict_mem k d = true ↔ k ∈ d.*1.
Proof.
  rewrite dict_mem_keys. unfold keys. rewrite elem_of_list_to_set. reflexivity.
Qed.

Lemma dict_comp_NoDup {A V} (key : A → string) (val : A → V) xs :
  NoDup (dict_comp key val xs).*1.
Proof.
  induction xs as [|x xs IH] using rev_ind; [constructor|].
  rewrite dict_comp_snoc, dict_set_fst.
  destruct (dict_mem (key x) _) eqn:Hmem; [exact IH|].
  apply NoDup_app. split; [exact IH|]. split; [|apply NoDup_singleton].
  intros y Hy ->%list_elem_of_singleton.
  apply dict_mem_fst in Hy. congruence.
Qed.

Lemma dict_comp_fst_elem {A V} (key : A → string) (val : A → V) xs k :
  k ∈ (dict_comp key val xs).*1 ↔ k ∈ map key xs.
Proof.
  rewrite <- (elem_of_list_to_set (C := gset string)).
  change (list_to_set (dict_comp key val xs).*1) with (keys (dict_comp key val xs)).
  rewrite dict_comp_keys, elem_of_list_to_set. reflexivity.
Qed.

Lemma mark_fst d k : (mark d k).*1 = d.*1.
Proof.
  unfold mark. destruct (dict_mem k d) eqn:H; [|reflexivity].
  rewrite dict_set_fst, H. reflexivity.
Qed.

Lemma mark_get d k k' :
  dict_get k' (mark d k)
  = if String.eqb k' k && dict_mem k d then Some true else dict_get k' d.
Proof.
  unfold mark. destruct (dict_mem k d) eqn:H.
  - rewrite dict_get_set. destruct (String.eqb k' k); reflexivity.
  - rewrite andb_false_r. reflexivity.
Qed.

Lemma marks_fst ks : ∀ d, (foldl mark d ks).*1 = d.*1.
Proof.
  induction ks as [|k ks IH]; intros d; [reflexivity|].
  cbn [foldl]. rewrite IH. apply mark_fst.
Qed.

(** After marking the keys [ks], a key of the dict is flagged exactly when
    it is one of [ks] or was flagged before. *)
Lemma marks_get ks : ∀ d k,
  dict_get k (foldl mark d ks)
  = if bool_decide (k ∈ ks) && dict_mem k d then Some true else dict_get k d.
Proof.
  induction ks as [|k0 ks IH]; intros d k; [reflexivity|].
  cbn [foldl]. rewrite IH, mark_get.
  assert (Hmem : dict_mem k (mark d k0) = dict_mem k d).
  { apply eq_true_iff_eq. rewrite !dict_mem_fst, mark_fst. reflexivity. }
  rewrite Hmem.
  destruct (String.eqb_spec k k0) as [->|Hne].
  - rewrite (bool_decide_eq_true_2 (k0 ∈ k0 :: ks)) by set_solver.
    destruct (dict_mem k0 d); cbn; [|rewrite andb_false_r; reflexivity].
    destruct (bool_decide (k0 ∈ ks)); reflexivity.
  - cbn [andb].
    rewrite (bool_decide_ext (k ∈ k0 :: ks) (k ∈ ks)) by set_solver.
    reflexivity.
Qed.

Lemma unmarked_elem (mk : string → error) d k :
  (∀ a b, mk a = mk b → a = b) →
  mk k ∈ unmarked mk d → (k, false) ∈ d.
Proof.
  intros Hinj. unfold unmarked. rewrite elem_of_flat_map.
  intros ([k' b] & Hin & He). destruct b; cbn in He; [set_solver|].
  apply list_elem_of_singleton, Hinj in He. subst. exact Hin.
Qed.

(** A key is reported once when its flag is still [False], else not. *)
Lemma unmarked_occurrences (mk : string → error) d k :
  (∀ a b, mk a = mk b → a = b) →
  NoDup d.*1 →
  occurrences (mk k) (unmarked mk d)
  = match dict_get k d with Some false => 1 | _ => 0 end.
Proof.
  intros Hinj. induction d as [|[k0 b] d IH]; intros Hnd; [reflexivity|].
  cbn [fmap list_fmap fst] in Hnd. apply NoDup_cons in Hnd as [Hnot Hnd].
  change (unmarked mk ((k0, b) :: d))
    with ((if b then [] else [mk k0]) ++ unmarked mk d).
  rewrite occurrences_app. cbn [dict_get].
  destruct (String.eqb_spec k k0) as [->|Hne].
  - rewrite (occurrences_none _ (unmarked mk d)).
    + destruct b; [reflexivity|].
      rewrite occurrences_singleton, decide_True; reflexivity.
    + intros Hin%unmarked_elem; [|exact Hinj].
      apply Hnot. apply list_elem_of_fmap. exists (k0, false). auto.
  - rewrite IH by exact Hnd.
    destruct b; [reflexivity|].
    rewrite occurrences_singleton, decide_False; [reflexivity|].
    intros E%Hinj. congruence.
Qed.

Lemma dict_comp_const_get {A V} (key : A → string) (v : V) xs k :
  dict_get k (dict_comp key (λ _, v) xs)
  = if bool_decide (k ∈ map key xs) then Some v else None.
Proof.
  induction xs as [|x xs IH] using rev_ind; [reflexivity|].
  rewrite dict_comp_snoc, dict_get_set, IH, map_app.
  destruct (String.eqb_spec k (key x)) as [->|Hne].
  - rewrite bool_decide_eq_true_2 by set_solver. reflexivity.
  - apply (f_equal (λ b : bool, if b then Some v else None)).
    apply bool_decide_ext. cbn. set_solver.
Qed.

(** The report of a dict that starts all-[False] and has [ks] marked. *)
Lemma marked_report (mk : string → error) {A} (key : A → string) xs ks k :
  (∀ a b, mk a = mk b → a = b) →
  occurrences (mk k)
    (unmarked mk (foldl mark (dict_comp key (λ _, false) xs) ks))
  = if bool_decide (k ∈ map key xs ∧ k ∉ ks) then 1 else 0.
Proof.
  intros Hinj.
  rewrite unmarked_occurrences;
    [|exact Hinj|rewrite marks_fst; apply dict_comp_NoDup].
  rewrite marks_get, dict_comp_const_get.
  assert (Hmem : dict_mem k (dict_comp key (λ _, false) xs)
                 = bool_decide (k ∈ map key xs)).
  { unfold dict_mem. rewrite dict_comp_const_get.
    destruct (bool_decide _); reflexivity. }
  rewrite Hmem.
  destruct (bool_decide (k ∈ map key xs)) eqn:Hk;
    destruct (bool_decide (k ∈ ks)) eqn:Hks; cbn [andb];
    [apply bool_decide_eq_true in Hk, Hks
    |apply bool_decide_eq_true in Hk; apply bool_decide_eq_false in Hks
    |apply bool_decide_eq_false in Hk
    |apply bool_decide_eq_false in Hk].
  - rewrite bool_decide_eq_false_2; [reflexivity|tauto].
  - rewrite bool_decide_eq_true_2; [reflexivity|tauto].
  - rewrite bool_decide_eq_false_2; [reflexivity|tauto].
  - rewrite bool_decide_eq_false_2; [reflexivity|tauto].
Qed.

(** ** Traceability: what each error says *)

Lemma goal_satisfied_by_marks sols goals :
  goal_satisfied_by sols goals
  = foldl mark (dict_comp goal_id (λ _, false) goals) (satisfied_ids sols).
Proof.
  unfold goal_satisfied_by, satisfied_ids.
  generalize (dict_comp goal_id (λ _ : Goal, false) goals) as d.
  induction sols as [|sol sols IH]; intros d; [reflexivity|].
  cbn [foldl flat_map]. rewrite foldl_app, IH. f_equal.
  generalize (satisfies sol) as gs. clear. intros gs. revert d.
  induction gs as [|g gs IHg]; intros d; [reflexivity|].
  cbn [foldl map]. apply IHg.
Qed.

Lemma solution_implemented_marks impls sols :
  solution_implemented impls sols
  = foldl mark (dict_comp sol_id (λ _, false) sols) (implemented_ids impls).
Proof.
  unfold solution_implemented, implemented_ids.
  generalize (dict_comp sol_id (λ _ : Solution, false) sols) as d.
  induction impls as [|impl impls IH]; intros d; [reflexivity|].
  cbn [foldl map]. apply IH.
Qed.

Lemma resolve_id sols k s : resolve sols k = Some s → sol_id s = k.
Proof. apply solution_map_id. Qed.

Lemma resolve_none sols k : resolve sols k = None ↔ k ∉ map sol_id sols.
Proof.
  unfold resolve.
  rewrite <- (dict_comp_fst_elem sol_id (λ s, s)), <- dict_mem_fst.
  unfold dict_mem. destruct (dict_get k _); split; congruence.
Qed.

Lemma goal_known goals g :
  dict_mem g (dict_comp goal_id (λ g, g) goals) = true ↔ g ∈ map goal_id goals.
Proof. rewrite dict_mem_fst. apply dict_comp_fst_elem. Qed.

(** The errors of the loop over the implementations. *)
Lemma implementation_errors impls sols goals e :
  e ∈ flat_map
        (check_implementation (dict_comp sol_id (λ s, s) sols)
           (dict_comp goal_id (λ g, g) goals)) impls
  ↔ ∃ impl, impl ∈ impls ∧
      let k := sol_id (implements impl) in
      (e = ImplementsUnknown (impl_id impl) k ∧ k ∉ map sol_id sols)
      ∨ (e = OrphanedSolution k
         ∧ ∃ s, resolve sols k = Some s ∧ satisfies s = [])
      ∨ (∃ s g, e = SatisfiesUnknown k (goal_id g)
                ∧ resolve sols k = Some s ∧ g ∈ satisfies s
                ∧ goal_id g ∉ map goal_id goals).
Proof.
  rewrite elem_of_flat_map. cbv zeta. split.
  - intros (impl & Hin & He). exists impl. split; [exact Hin|].
    apply check_implementation_cases in He
      as [[-> Hn]|[[-> Hs]|(s & g & -> & Hs & Hg & Hm)]];
      [| | |intros k v; apply solution_map_id].
    + left. split; [reflexivity|]. apply resolve_none, Hn.
    + right; left. auto.
    + right; right. exists s, g. repeat split; auto.
      rewrite <- goal_known. congruence.
  - intros (impl & Hin & H). exists impl. split; [exact Hin|].
    unfold check_implementation. fold (resolve sols (sol_id (implements impl))).
    destruct H as [[-> Hn]|[[-> (s & Hs & Hsat)]|(s & g & -> & Hs & Hg & Hm)]].
    + apply resolve_none in Hn. rewrite Hn. set_solver.
    + rewrite Hs, Hsat, (resolve_id _ _ _ Hs). set_solver.
    + rewrite Hs, (resolve_id _ _ _ Hs).
      destruct (satisfies s) as [|g0 gs] eqn:Hsat; [set_solver|].
      apply elem_of_flat_map. exists g. split; [exact Hg|].
      destruct (dict_mem (goal_id g) _) eqn:Hmem; [|set_solver].
      apply goal_known in Hmem. contradiction.
Qed.

Lemma traceability_parts impls sols goals :
  validate_traceability_errors impls sols goals
  = flat_map
      (check_implementation (dict_comp sol_id (λ s, s) sols)
         (dict_comp goal_id (λ g, g) goals)) impls
    ++ unmarked OrphanedGoal
         (foldl mark (dict_comp goal_id (λ _, false) goals) (satisfied_ids sols))
    ++ unmarked UnimplementedSolution
         (foldl mark (dict_comp sol_id (λ _, false) sols) (implemented_ids impls)).
Proof.
  unfold validate_traceability_errors.
  rewrite goal_satisfied_by_marks, solution_implemented_marks. reflexivity.
Qed.

(** X1: a Goal id gets exactly one orphaned-goal error when it is the id of
    a supplied Goal and of no Goal in any Solution's [satisfies], and none
    otherwise; several Goals with one id share the one error. *)
Theorem orphaned_goal_reported_once impls sols goals k :
  occurrences (OrphanedGoal k) (validate_traceability_errors impls sols goals)
  = if bool_decide (k ∈ map goal_id goals ∧ k ∉ satisfied_ids sols)
    then 1 else 0.
Proof.
  rewrite traceability_parts, !occurrences_app.
  rewrite (marked_report OrphanedGoal goal_id) by (intros a b [=]; auto).
  rewrite (occurrences_none _ (flat_map _ _)).
  - rewrite (occurrences_none _ (unmarked UnimplementedSolution _)); [lia|].
    intros [k' [=]]%unmarked_only.
  - intros (impl & _ & H)%implementation_errors. cbv zeta in H.
    destruct H as [[[=] _]|[[[=] _]|(s & g & [=] & _)]].
Qed.

(** X2: a Solution id gets exactly one unimplemented-solution error when it
    is the id of a supplied Solution and of no Implementation's
    [implements], and none otherwise. *)
Theorem unimplemented_solution_reported_once impls sols goals k :
  occurrences (UnimplementedSolution k)
    (validate_traceability_errors impls sols goals)
  = if bool_decide (k ∈ map sol_id sols ∧ k ∉ implemented_ids impls)
    then 1 else 0.
Proof.
  rewrite traceability_parts, !occurrences_app.
  rewrite (marked_report UnimplementedSolution sol_id)
    by (intros a b [=]; auto).
  rewrite (occurrences_none _ (flat_map _ _)).
  - rewrite (occurrences_none _ (unmarked OrphanedGoal _)); [lia|].
    intros [k' [=]]%unmarked_only.
  - intros (impl & _ & H)%implementation_errors. cbv zeta in H.
    destruct H as [[[=] _]|[[[=] _]|(s & g & [=] & _)]].
Qed.

(** X3: the dangling references.  An implements-unknown error names an
    Implementation and a Solution id exactly when such an Implementation is
    supplied and no supplied Solution has that id; a satisfies-unknown
    error names a Solution id and a Goal id exactly when some
    Implementation implements that id, the Solution it resolves to lists a
    Goal of that id, and no supplied Goal has it. *)
Theorem dangling_references_reported impls sols goals :
  (∀ i k,
     ImplementsUnknown i k ∈ validate_traceability_errors impls sols goals
     ↔ ∃ impl, impl ∈ impls ∧ impl_id impl = i
               ∧ sol_id (implements impl) = k ∧ k ∉ map sol_id sols)
  ∧ (∀ k g,
       SatisfiesUnknown k g ∈ validate_traceability_errors impls sols goals
       ↔ ∃ impl s goal,
           impl ∈ impls ∧ sol_id (implements impl) = k
           ∧ resolve sols k = Some s ∧ goal ∈ satisfies s
           ∧ goal_id goal = g ∧ g ∉ map goal_id goals).
Proof.
  split; intros a b; rewrite traceability_parts, !elem_of_app,
    implementation_errors; cbv zeta; split.
  - intros [(impl & Hin & H)|[[k' [=]]%unmarked_only|[k' [=]]%unmarked_only]].
    destruct H as [[[= -> ->] Hn]|[[[=] _]|(s & g & [=] & _)]]. eauto 6.
  - intros (impl & Hin & <- & <- & Hn). left. exists impl. auto.
  - intros [(impl & Hin & H)|[[k' [=]]%unmarked_only|[k' [=]]%unmarked_only]].
    destruct H as [[[=] _]|[[[=] _]|(s & g & [= -> ->] & Hs & Hg & Hm)]].
    exists impl, s, g. auto 8.
  - intros (impl & s & goal & Hin & <- & Hs & Hg & <- & Hm). left.
    exists impl. split; [exact Hin|]. right; right. exists s, goal. auto.
Qed.




(** ** Dependencies: the traversal finds exactly the cycles *)

Lemma pyset_remove_added (x : string) (path : list string) :
  x ∉ path → pyset_remove x (path ++ [x]) = path.
Proof.
  intros Hx. unfold pyset_remove. rewrite filter_app.
  rewrite (filter_cons _ x), decide_False by (intros H; exact (H eq_refl)).
  cbn. rewrite app_nil_r.
  induction path as [|y path IH]; [reflexivity|].
  rewrite filter_cons, decide_True by set_solver.
  f_equal. apply IH. set_solver.
Qed.

Lemma pyset_add_new (x : string) (path : list string) :
  x ∉ path → pyset_add x path = path ++ [x].
Proof. intros Hx. unfold pyset_add. rewrite bool_decide_eq_false_2; auto. Qed.

Lemma cycle_free_no_cycle smap x :
  cycle_free_from smap x → ¬ tc (map_edge smap) x x.
Proof.
  induction 1 as [x _ IH]. intros Hc.
  inversion Hc as [? ? Hxx|? y ? Hxy Hyx]; subst.
  - exact (IH x Hxx Hc).
  - apply (IH y Hxy). eapply tc_r; eassumption.
Qed.

Section traversal.

Variable set_iter : list string → list string.
Variable solution_map : pydict Solution.

Abbreviation edge := (map_edge solution_map).
Abbreviation safe := (cycle_free_from solution_map).

Abbreviation cycle_report := (cycle_report set_iter solution_map).
Abbreviation settled := (settled solution_map).
Abbreviation finished := (finished solution_map).
Abbreviation outcome_ok := (outcome_ok set_iter solution_map).

Lemma safe_leaf k : dict_get k solution_map = None → safe k.
Proof. intros Hk. constructor. intros y (s & Hs & _). congruence. Qed.

Lemma safe_node k sol :
  dict_get k solution_map = Some sol →
  (∀ r, r ∈ requires sol → safe r) → safe k.
Proof.
  intros Hk Hreqs. constructor. intros y (s & Hs & Hy).
  apply Hreqs. congruence.
Qed.

Lemma settled_add_leaf start_id visited path :
  dict_get start_id solution_map = None →
  settled visited path → settled ({[start_id]} ∪ visited) path.
Proof.
  intros Hget Hs v Hv Hnot. apply elem_of_union in Hv as [Hv|Hv].
  - apply elem_of_singleton in Hv as ->. apply safe_leaf, Hget.
  - apply Hs; assumption.
Qed.

Lemma settled_push start_id visited path :
  settled visited path → settled ({[start_id]} ∪ visited) (path ++ [start_id]).
Proof.
  intros Hs v Hv Hnot. apply elem_of_union in Hv as [Hv|Hv].
  - apply elem_of_singleton in Hv as ->. exfalso. apply Hnot.
    apply elem_of_app. right. apply list_elem_of_singleton. reflexivity.
  - apply Hs; [exact Hv|]. intros Hp. apply Hnot, elem_of_app. left. exact Hp.
Qed.

Lemma settled_pop start_id visited path :
  safe start_id →
  settled visited (path ++ [start_id]) → settled visited path.
Proof.
  intros Hstart Hs v Hv Hnot.
  destruct (decide (v = start_id)) as [->|Hne]; [exact Hstart|].
  apply Hs; [exact Hv|]. intros [Hp|Hp]%elem_of_app; [exact (Hnot Hp)|].
  apply list_elem_of_singleton in Hp. exact (Hne Hp).
Qed.

Lemma path_reaches start_id q path :
  (∀ x, x ∈ path → tc edge x start_id) →
  edge start_id q →
  ∀ x, x ∈ path ++ [start_id] → tc edge x q.
Proof.
  intros Hpath Hq x [Hx|Hx]%elem_of_app.
  - eapply tc_r; [apply Hpath, Hx|exact Hq].
  - apply list_elem_of_singleton in Hx as ->. apply tc_once, Hq.
Qed.

(** The loop over the requirements of [start_id], given that the calls it
    makes behave. *)
Lemma visit_requires_outcome
    (call : string → gset string → list string → option dfs_result)
    start_id path :
  start_id ∉ path →
  (∀ req vis r,
     call req vis (path ++ [start_id]) = Some r →
     edge start_id req →
     outcome_ok req vis (path ++ [start_id]) r) →
  ∀ reqs vis r,
    visit_requires call start_id reqs vis (path ++ [start_id]) = Some r →
    (∀ q, q ∈ reqs → edge start_id q) →
    if cycle_found (dfs_cycle r) then cycle_report (dfs_cycle r)
    else dfs_path r = path
         ∧ vis ⊆ dfs_visited r
         ∧ (settled vis (path ++ [start_id]) →
            settled (dfs_visited r) (path ++ [start_id])
            ∧ ∀ q, q ∈ reqs → safe q).
Proof.
  intros Hon Hcall.
  induction reqs as [|req reqs IHreqs]; intros vis r Hr Hedges;
    cbn [visit_requires] in Hr.
  - injection Hr as <-. cbn [dfs_cycle cycle_found dfs_path dfs_visited].
    rewrite pyset_remove_added by exact Hon.
    split; [reflexivity|]. split; [reflexivity|].
    intros Hs. split; [exact Hs|]. intros q Hq. inversion Hq.
  - destruct (call req vis (path ++ [start_id])) as [r1|] eqn:Hc; [|discriminate].
    assert (Hreq : edge start_id req) by (apply Hedges; left).
    apply Hcall in Hc; [|exact Hreq]. unfold outcome_ok in Hc.
    destruct (cycle_found (dfs_cycle r1)) eqn:Hfound.
    + injection Hr as <-. rewrite Hfound. exact Hc.
    + destruct Hc as (Hnot & Hp1 & Hv1 & Hin1 & Hs1).
      rewrite Hp1 in Hr. apply IHreqs in Hr;
        [|intros q Hq; apply Hedges; right; exact Hq].
      destruct (cycle_found (dfs_cycle r)); [exact Hr|].
      destruct Hr as (Hp0 & Hv0 & Hs0).
      split; [exact Hp0|]. split; [etransitivity; eassumption|].
      intros Hs. destruct (Hs0 (Hs1 Hs)) as [Hs' Hsafe].
      split; [exact Hs'|].
      intros q Hq. apply elem_of_cons in Hq as [->|Hq]; [|apply Hsafe, Hq].
      apply Hs'; [|exact Hnot]. apply Hv0, Hin1.
Qed.

Lemma has_cycle_outcome fuel : ∀ start_id visited path r,
  has_cycle set_iter solution_map fuel start_id visited path = Some r →
  (∀ x, x ∈ path → tc edge x start_id) →
  outcome_ok start_id visited path r.
Proof.
  induction fuel as [|fuel IH]; intros start_id visited path r Hrun Hpath;
    [discriminate|].
  cbn [has_cycle] in Hrun.
  case_bool_decide as Hon.
  { injection Hrun as <-. unfold outcome_ok. cbn [dfs_cycle].
    rewrite cycle_found_snoc. exists path, start_id. auto. }
  case_bool_decide as Hvis.
  { injection Hrun as <-. unfold outcome_ok, finished.
    cbn [dfs_cycle cycle_found dfs_path dfs_visited].
    split; [exact Hon|]. split; [reflexivity|]. split; [reflexivity|].
    split; [exact Hvis|]. auto. }
  rewrite pyset_add_new in Hrun by exact Hon.
  destruct (dict_get start_id solution_map) as [sol|] eqn:Hget.
  2: { injection Hrun as <-. unfold outcome_ok, finished.
       cbn [dfs_cycle cycle_found dfs_path dfs_visited].
       rewrite pyset_remove_added by exact Hon.
       split; [exact Hon|]. split; [reflexivity|].
       split; [apply union_subseteq_r|].
       split; [apply elem_of_union; left; apply elem_of_singleton; reflexivity|].
       apply settled_add_leaf, Hget. }
  apply (visit_requires_outcome _ start_id path Hon) in Hrun.
  - unfold outcome_ok. destruct (cycle_found (dfs_cycle r)); [exact Hrun|].
    destruct Hrun as (Hp & Hv & Hs).
    split; [exact Hon|]. split; [exact Hp|].
    split; [etransitivity; [apply union_subseteq_r|exact Hv]|].
    split; [apply Hv, elem_of_union; left; apply elem_of_singleton; reflexivity|].
    intros Hset. destruct (Hs (settled_push _ _ _ Hset)) as [Hs' Hreqs].
    eapply settled_pop; [|exact Hs'].
    eapply safe_node; eassumption.
  - intros req vis r1 Hc Hreq. apply IH; [exact Hc|].
    apply path_reaches; assumption.
  - intros q Hq. exists sol. auto.
Qed.

Lemma cycle_error_elem c e :
  e ∈ cycle_error c →
  cycle_found c = true ∧ ∃ l, c = Some l ∧ e = CircularDependency l.
Proof.
  destruct c as [[|x l]|]; cbn [cycle_error cycle_found].
  - intros H. inversion H.
  - intros ->%list_elem_of_singleton. eauto.
  - intros H. inversion H.
Qed.

Lemma cycle_error_nil c : cycle_error c = [] → cycle_found c = false.
Proof. destruct c as [[|x l]|]; cbn; congruence. Qed.

(** The loop over the roots: every error comes from a call that found a
    cycle; with no error, every root is free of cycles. *)
Lemma scan_roots_outcome fuel roots : ∀ visited errs,
  scan_roots set_iter solution_map fuel roots visited = Some errs →
  (∀ e, e ∈ errs → ∃ l, e = CircularDependency l ∧ cycle_report (Some l))
  ∧ (errs = [] → settled visited [] → ∀ v, v ∈ roots → safe v).
Proof.
  induction roots as [|root roots IH]; intros visited errs Hrun;
    cbn [scan_roots] in Hrun.
  - injection Hrun as <-. split; [intros e He; inversion He|].
    intros _ _ v Hv. inversion Hv.
  - case_bool_decide as Hvis.
    + destruct (IH _ _ Hrun) as [Herrs Hnil].
      split; [exact Herrs|]. intros Hn Hs v [->|Hv]%elem_of_cons.
      * apply Hs; [exact Hvis|]. intros H. inversion H.
      * apply Hnil; assumption.
    + destruct (has_cycle set_iter solution_map fuel root visited [])
        as [r|] eqn:Hcall; [|discriminate].
      destruct (scan_roots set_iter solution_map fuel roots (dfs_visited r))
        as [errs'|] eqn:Hrest; [|discriminate].
      injection Hrun as <-.
      destruct (IH _ _ Hrest) as [Herrs Hnil].
      apply has_cycle_outcome in Hcall; [|intros x Hx; inversion Hx].
      unfold Graph.outcome_ok in Hcall. split.
      * intros e [He|He]%elem_of_app; [|apply Herrs, He].
        apply cycle_error_elem in He as (Hfound & l & Hl & ->).
        rewrite Hfound in Hcall. exists l. rewrite <- Hl. auto.
      * intros [Hc ->]%app_eq_nil Hs. apply cycle_error_nil in Hc.
        rewrite Hc in Hcall. destruct Hcall as (_ & _ & _ & Hin & Hs').
        intros v [->|Hv]%elem_of_cons.
        -- apply Hs'; [exact Hs|exact Hin|]. intros H. inversion H.
        -- apply Hnil; auto.
Qed.

End traversal.

Lemma missing_requires_elem sols e :
  e ∈ missing_requires (dict_comp sol_id (λ s, s) sols) sols
  ↔ ∃ sol r, e = RequiresUnknown (sol_id sol) r ∧ sol ∈ sols
             ∧ r ∈ requires sol ∧ r ∉ map sol_id sols.
Proof.
  unfold missing_requires. rewrite elem_of_flat_map. split.
  - intros (sol & Hsol & (r & Hr & He)%elem_of_flat_map).
    destruct (dict_mem r _) eqn:Hmem; [inversion He|].
    apply list_elem_of_singleton in He as ->. exists sol, r.
    repeat split; auto.
    rewrite <- (dict_comp_fst_elem sol_id (λ s, s)), <- dict_mem_fst.
    congruence.
  - intros (sol & r & -> & Hsol & Hr & Hnot). exists sol. split; [exact Hsol|].
    apply elem_of_flat_map. exists r. split; [exact Hr|].
    destruct (dict_mem r _) eqn:Hmem; [|left].
    apply dict_mem_fst, dict_comp_fst_elem in Hmem. contradiction.
Qed.

(** The error list of the dependency check, in its two parts. *)
Lemma dependencies_parts set_iter sols :
  ∃ cycles,
    scan_roots set_iter (dict_comp sol_id (λ s, s) sols) (dfs_fuel sols)
      (map sol_id sols) ∅ = Some cycles
    ∧ validate_dependencies_errors set_iter sols
      = missing_requires (dict_comp sol_id (λ s, s) sols) sols ++ cycles.
Proof.
  pose proof (validate_dependencies_run_total set_iter sols) as Hrun.
  unfold validate_dependencies_run in Hrun.
  destruct (scan_roots _ _ _ _ _) as [cycles|]; [|discriminate].
  exists cycles. split; [reflexivity|]. congruence.
Qed.

(** X4: a missing-requirement error names a Solution id and a required id
    exactly when a supplied Solution of that id requires an id that no
    supplied Solution has. *)
Theorem missing_requirements_reported set_iter sols s r :
  RequiresUnknown s r ∈ validate_dependencies_errors set_iter sols
  ↔ ∃ sol, sol ∈ sols ∧ sol_id sol = s ∧ r ∈ requires sol
           ∧ r ∉ map sol_id sols.
Proof.
  destruct (dependencies_parts set_iter sols) as (cycles & Hscan & ->).
  rewrite elem_of_app, missing_requires_elem. split.
  - intros [(sol & r' & [= -> ->] & H)|Hc].
    + exists sol. tauto.
    + apply (scan_roots_outcome _ _ _ _ _ _ Hscan) in Hc as (l & [=] & _).
  - intros (sol & Hsol & <- & Hr & Hnot). left. exists sol, r. auto.
Qed.

(** Without a limit on the recursion, a circular dependency is reported if
    and only if the requires graph has a cycle. *)
Lemma cycle_errors_iff_cyclic set_iter sols :
  (∃ c, CircularDependency c ∈ validate_dependencies_errors set_iter sols)
  ↔ ∃ x, tc (requires_edge sols) x x.
Proof.
  destruct (dependencies_parts set_iter sols) as (cycles & Hscan & ->).
  destruct (scan_roots_outcome _ _ _ _ _ _ Hscan) as [Herrs Hnil].
  split.
  - intros [c [Hc|Hc]%elem_of_app].
    + apply missing_requires_elem in Hc as (? & ? & [=] & _).
    + apply Herrs in Hc as (l & _ & p & x & _ & Hx & Hreach).
      exists x. apply Hreach, Hx.
  - intros [x Hx]. destruct cycles as [|e cycles].
    + exfalso. refine (cycle_free_no_cycle _ x _ Hx).
      apply (Hnil eq_refl); [intros v Hv; set_solver|].
      assert (∃ y, requires_edge sols x y) as (y & s & Hs & _).
      { inversion Hx; eauto. }
      rewrite <- (dict_comp_fst_elem sol_id (λ s, s)). apply dict_mem_fst.
      unfold dict_mem. rewrite Hs. reflexivity.
    + destruct (Herrs e) as (l & -> & _); [left|].
      exists l. apply elem_of_app. right. left.
Qed.

(** ** Dependencies: the recursion limit *)

Section frames.

Variable set_iter : list string → list string.
Variable solution_map : pydict Solution.

Lemma visit_requires_mono
    (call call' : string → gset string → list string → option dfs_result)
    start_id reqs :
  (∀ req v p r, call req v p = Some r → call' req v p = Some r) →
  ∀ visited path r,
    visit_requires call start_id reqs visited path = Some r →
    visit_requires call' start_id reqs visited path = Some r.
Proof.
  intros Hcall. induction reqs as [|req reqs IH]; intros visited path r;
    cbn [visit_requires]; [auto|].
  destruct (call req visited path) as [r1|] eqn:H1; [|discriminate].
  rewrite (Hcall _ _ _ _ H1).
  destruct (cycle_found (dfs_cycle r1)); [auto|apply IH].
Qed.

(** A call that returns with room for [fuel] nested calls returns the same
    with more room. *)
Lemma has_cycle_fuel_mono fuel : ∀ fuel' start_id visited path r,
  (fuel ≤ fuel')%nat →
  has_cycle set_iter solution_map fuel start_id visited path = Some r →
  has_cycle set_iter solution_map fuel' start_id visited path = Some r.
Proof.
  induction fuel as [|fuel IH]; intros fuel' start_id visited path r Hle;
    [discriminate|].
  destruct fuel' as [|fuel']; [lia|]. cbn [has_cycle].
  repeat case_bool_decide; try exact (λ H, H).
  destruct (dict_get start_id solution_map); [|exact (λ H, H)].
  apply visit_requires_mono. intros req v p r'. apply IH. lia.
Qed.

Lemma scan_roots_fuel_mono fuel fuel' roots : ∀ visited errs,
  (fuel ≤ fuel')%nat →
  scan_roots set_iter solution_map fuel roots visited = Some errs →
  scan_roots set_iter solution_map fuel' roots visited = Some errs.
Proof.
  induction roots as [|root roots IH]; intros visited errs Hle;
    cbn [scan_roots]; [auto|].
  case_bool_decide; [apply IH, Hle|].
  destruct (has_cycle set_iter solution_map fuel root visited [])
    as [r|] eqn:Hr; [|discriminate].
  rewrite (has_cycle_fuel_mono _ _ _ _ _ _ Hle Hr).
  destruct (scan_roots set_iter solution_map fuel roots (dfs_visited r))
    as [errs'|] eqn:Hrest; [|discriminate].
  rewrite (IH _ _ Hle Hrest). exact (λ H, H).
Qed.

End frames.

(** With room for one nested call more than there are Solutions, the
    check returns, and it returns the list computed without a limit. *)
Lemma validate_dependencies_within_enough frames set_iter sols :
  (length sols < frames)%nat →
  validate_dependencies_within frames set_iter sols
  = Ok (validate_dependencies_errors set_iter sols).
Proof.
  intros Hframes.
  destruct (dependencies_parts set_iter sols) as (cycles & Hscan & ->).
  unfold validate_dependencies_within. cbv zeta.
  assert (Hle : (dfs_fuel sols ≤ frames)%nat) by (unfold dfs_fuel; lia).
  rewrite (scan_roots_fuel_mono _ _ _ _ _ _ _ Hle Hscan). reflexivity.
Qed.

(** With too little room the check raises: the chain [A], [B], [C] needs
    three nested calls before the revisit of [B] is noticed in a
    fourth. *)
Lemma deep_chain_exhausts_frames :
  validate_dependencies_within 3 insertion_order tail_into_loop
  = Raise recursion_error
  ∧ validate_dependencies_within 4 insertion_order tail_into_loop
    = Ok [CircularDependency ["A"; "B"; "C"; "B"]].
Proof. split; vm_compute; reflexivity. Qed.

(** X5: the dependency check, called where the interpreter has room for
    one nested call of [has_cycle] more than there are Solutions, returns
    its error list (the recursion limit is not reached), and the list
    holds a circular-dependency error if and only if the requires graph of
    the supplied Solutions (ids resolved as the check resolves them) has a
    cycle.  With less room the check can raise [RecursionError]. *)
Theorem cycle_reported_iff_cyclic frames set_iter sols :
  (length sols < frames)%nat →
  ∃ errs,
    validate_dependencies_within frames set_iter sols = Ok errs
    ∧ errs = validate_dependencies_errors set_iter sols
    ∧ ((∃ c, CircularDependency c ∈ errs)
       ↔ ∃ x, tc (requires_edge sols) x x).
Proof.
  intros Hframes. exists (validate_dependencies_errors set_iter sols).
  split; [apply validate_dependencies_within_enough, Hframes|].
  split; [reflexivity|]. apply cycle_errors_iff_cyclic.
Qed.

Lemma cycle_reported_iff_cyclic_witness :
  ∃ errs,
    validate_dependencies_within 4 reverse_order tail_into_loop = Ok errs
    ∧ errs = validate_dependencies_errors reverse_order tail_into_loop
    ∧ ((∃ c, CircularDependency c ∈ errs)
       ↔ ∃ x, tc (requires_edge tail_into_loop) x x).
Proof.
  apply (cycle_reported_iff_cyclic 4 reverse_order tail_into_loop).
  vm_compute. lia.
Defined.

(** X6: what a reported cycle lists.  The list is the iteration of a set of
    ids followed by one more id [x]; [x] is in that set, and every id of
    the set reaches [x] along requires edges, so [x] lies on a cycle. *)
Theorem reported_cycle_shape set_iter sols c :
  CircularDependency c ∈ validate_dependencies_errors set_iter sols →
  ∃ p x, c = set_iter p ++ [x] ∧ x ∈ p
         ∧ ∀ y, y ∈ p → tc (requires_edge sols) y x.
Proof.
  destruct (dependencies_parts set_iter sols) as (cycles & Hscan & ->).
  intros [Hc|Hc]%elem_of_app.
  - apply missing_requires_elem in Hc as (? & ? & [=] & _).
  - apply (scan_roots_outcome _ _ _ _ _ _ Hscan) in Hc
      as (l & [= ->] & p & x & [= ->] & Hx & Hreach).
    exists p, x. auto.
Qed.

Lemma reported_cycle_shape_witness :
  ∃ p x, ["S-2"; "S-1"; "S-1"] = reverse_order p ++ [x] ∧ x ∈ p
         ∧ ∀ y, y ∈ p → tc (requires_edge [mutual_a; mutual_b]) y x.
Proof.
  apply (reported_cycle_shape reverse_order [mutual_a; mutual_b]).
  apply (bool_decide_unpack _). vm_compute. exact I.
Defined.

(** ** Code inventory: what each error says *)






(** ** Code inventory: what is reported as undeclared *)

Section undeclared_sound.

Variable w : World.
Variable root_dir : string.
Variables declared declared_tests : gset string.

Abbreviation scan' := (scan_file w root_dir declared declared_tests).
Abbreviation items_errors' :=
  (scan_items w root_dir declared declared_tests).

(** Whatever the walk reports below an entry comes from a file reached
    through kept directories. *)
Lemma walk_errors_sound en : ∀ pre e,
  e ∈ items_errors' (os_walk_entry kept pre en) →
  ∃ d cs q file,
    en = Dir d cs ∧ kept d = true ∧ (∀ x, x ∈ q → kept x = true)
    ∧ file_at cs q file = true ∧ e ∈ scan' (pre ++ d :: q) file.
Proof.
  induction en as [n|d cs IH] using entry_nested_ind; intros pre e Hin.
  - inversion Hin.
  - cbn [os_walk_entry] in Hin.
    destruct (kept d) eqn:Hd; [|inversion Hin].
    rewrite items_errors_cons, elem_of_app in Hin.
    exists d, cs. destruct Hin as [Hin|Hin].
    + apply elem_of_flat_map in Hin as (f & Hf & Hin).
      exists [], f.
      repeat split; [exact Hd|intros x Hx; inversion Hx| |exact Hin].
      cbn [file_at]. apply bool_decide_eq_true_2, Hf.
    + rewrite items_errors_flat_map in Hin.
      apply elem_of_flat_map in Hin as (c & Hc & Hin).
      rewrite Forall_forall in IH.
      destruct (IH c Hc _ _ Hin) as (d' & cs' & q & file & -> & Hd' & Hq & Hat & He).
      exists (d' :: q), file. rewrite <- app_assoc in He.
      repeat split; [exact Hd| |  |exact He].
      * intros x [->|Hx]%elem_of_cons; auto.
      * cbn [file_at]. apply existsb_exists. exists (Dir d' cs').
        split; [apply list_elem_of_In, Hc|].
        rewrite String.eqb_refl. exact Hat.
Qed.

Lemma bottom_up_sound e :
  e ∈ bottom_up w root_dir declared declared_tests →
  ∃ dirs file,
    file_at (listing w root_dir) dirs file = true
    ∧ (∀ x, x ∈ dirs → kept x = true)
    ∧ e ∈ scan' dirs file.
Proof.
  rewrite bottom_up_items, items_errors_cons, elem_of_app.
  intros [Hin|Hin].
  - apply elem_of_flat_map in Hin as (f & Hf & Hin).
    exists [], f. repeat split; [|intros x Hx; inversion Hx|exact Hin].
    cbn [file_at]. apply bool_decide_eq_true_2, Hf.
  - rewrite items_errors_flat_map in Hin.
    apply elem_of_flat_map in Hin as (en & Hen & Hin).
    apply walk_errors_sound in Hin as (d & cs & q & file & -> & Hd & Hq & Hat & He).
    exists (d :: q), file. repeat split; [| |exact He].
    + cbn [file_at]. apply existsb_exists. exists (Dir d cs).
      split; [apply list_elem_of_In, Hen|].
      rewrite String.eqb_refl. exact Hat.
    + intros x [->|Hx]%elem_of_cons; auto.
Qed.

(** What the loop body checks before it reports a file. *)
Lemma scan_file_elem dirs file e :
  e ∈ scan' dirs file →
  e = UndeclaredFile (join_parts (dirs ++ [file]))
  ∧ lower (splitext_ext file) ∈ code_extensions
  ∧ ("examples" ∉ dirs ++ [file])
  ∧ ("examples" ∉ abspath_parts w root_dir)
  ∧ String.prefix "examples/" (join_parts (dirs ++ [file])) = false
  ∧ (join_parts (dirs ++ [file]) ∉ declared)
  ∧ (join_parts (dirs ++ [file]) ∉ declared_tests).
Proof.
  unfold scan_file.
  case_bool_decide as Hext; [|intros H; inversion H].
  case_bool_decide as Hparts; [intros H; inversion H|].
  case_bool_decide as Habs; [intros H; inversion H|].
  destruct (String.prefix _ _) eqn:Hpre; [intros H; inversion H|].
  cbn [orb].
  case_bool_decide as Hd; [|intros H; inversion H].
  case_bool_decide as Ht; [|intros H; inversion H].
  intros ->%list_elem_of_singleton.
  repeat split; try assumption.
  intros Hin. apply Habs, elem_of_app. left. exact Hin.
Qed.

End undeclared_sound.

(** X8: every undeclared-file error names a file that the walk finds on
    disk below the root, with a source extension, reached through
    directories none of which is ignored, with no segment [examples] in
    its relative path or in the absolute path of the root, and whose
    relative path is neither a declared code file nor a declared test file
    nor a supplied acceptance test. *)
Theorem undeclared_errors_sound impls goals root s :
  ∃ errs s',
    validate_code_inventory_errors impls goals root s = (Ok errs, s')
    ∧ ∀ p, UndeclaredFile p ∈ errs →
        ∃ dirs file,
          p = join_parts (dirs ++ [file])
          ∧ file_at (listing (world s) root) dirs file = true
          ∧ lower (splitext_ext file) ∈ code_extensions
          ∧ (∀ d, d ∈ dirs → d ∉ ignored_dirs)
          ∧ ("examples" ∉ abspath_parts (world s) root)
          ∧ (p ∉ declared_files impls)
          ∧ (p ∉ declared_test_files impls goals).
Proof.
  pose proof (validate_code_inventory_errors_returns impls goals root s) as Hrun.
  cbn [fst snd] in Hrun. eexists _, _. split; [exact Hrun|].
  intros p [Hin|Hin]%elem_of_app.
  - exfalso. exact (top_down_not_undeclared _ _ _ _ Hin).
  - apply bottom_up_sound in Hin as (dirs & file & Hat & Hkept & He).
    apply scan_file_elem in He as ([= ->] & Hext & _ & Habs & _ & Hd & Ht).
    exists dirs, file. repeat split; try assumption.
    intros d Hd' Hign. specialize (Hkept d Hd'). unfold kept in Hkept.
    rewrite bool_decide_eq_true_2 in Hkept by exact Hign. discriminate.
Qed.

(** ** Test inventory *)

(** The test-inventory check leaves the state as it is; it reports a
    missing acceptance test for exactly the supplied Goals whose
    [acceptance_test] does not exist below the root, a missing test file
    for exactly the Implementations' [test_files] entries that do not
    exist, and nothing else; the Goals' errors come first. *)
Lemma test_inventory_errors goals impls root s :
  ∃ missing_goals missing_impls,
    validate_test_inventory_errors goals impls root s
    = (Ok (missing_goals ++ missing_impls), s)
    ∧ (∀ e, e ∈ missing_goals
            ↔ ∃ g, g ∈ goals
                   ∧ path_exists (world s) (path_join root (acceptance_test g))
                     = false
                   ∧ e = MissingAcceptanceTest (goal_id g) (acceptance_test g))
    ∧ (∀ e, e ∈ missing_impls
            ↔ ∃ impl f, impl ∈ impls ∧ f ∈ test_files impl
                        ∧ path_exists (world s) (path_join root f) = false
                        ∧ e = MissingTestFile (impl_id impl) f).
Proof.
  eexists _, _. split; [reflexivity|]. split; intros e.
  - rewrite elem_of_flat_map. split.
    + intros (g & Hg & He). exists g.
      destruct (path_exists _ _); [inversion He|].
      apply list_elem_of_singleton in He. auto.
    + intros (g & Hg & Hex & ->). exists g. rewrite Hex.
      split; [exact Hg|left].
  - rewrite elem_of_flat_map. split.
    + intros (impl & Hi & (f & Hf & He)%elem_of_flat_map). exists impl, f.
      destruct (path_exists _ _); [inversion He|].
      apply list_elem_of_singleton in He. auto.
    + intros (impl & f & Hi & Hf & Hex & ->). exists impl.
      split; [exact Hi|]. apply elem_of_flat_map. exists f. rewrite Hex.
      split; [exact Hf|left].
Qed.

(** X9: the test-inventory check only asks whether files exist.  It logs
    no extractor call and leaves the state as it is, so a test file that
    exists passes whatever it contains; its errors are a missing
    acceptance test for exactly the supplied Goals whose [acceptance_test]
    does not exist below the root, and a missing test file for exactly the
    [test_files] entries that do not exist; and its outcome is the same in
    every world with the same existing paths. *)
Theorem test_inventory_checks_existence_only goals impls root s :
  ∃ errs,
    validate_test_inventory_errors goals impls root s = (Ok errs, s)
    ∧ (∀ e, e ∈ errs →
         (∃ i f, e = MissingAcceptanceTest i f)
         ∨ ∃ i f, e = MissingTestFile i f)
    ∧ (∀ i f,
         MissingAcceptanceTest i f ∈ errs
         ↔ ∃ g, g ∈ goals ∧ goal_id g = i ∧ acceptance_test g = f
                ∧ path_exists (world s) (path_join root f) = false)
    ∧ (∀ i f,
         MissingTestFile i f ∈ errs
         ↔ ∃ impl, impl ∈ impls ∧ impl_id impl = i ∧ f ∈ test_files impl
                   ∧ path_exists (world s) (path_join root f) = false)
    ∧ (∀ s2,
         (∀ p, path_exists (world s2) p = path_exists (world s) p) →
         (validate_test_inventory_errors goals impls root s2).1 = Ok errs).
Proof.
  destruct (test_inventory_errors goals impls root s)
    as (mg & mi & Hrun & Hmg & Hmi).
  exists (mg ++ mi). split; [exact Hrun|]. split; [|split; [|split]].
  - intros e [(g & _ & _ & ->)%Hmg|(impl & f & _ & _ & _ & ->)%Hmi]%elem_of_app;
      eauto.
  - intros i f. rewrite elem_of_app, Hmg, Hmi. split.
    + intros [(g & Hg & Hex & [= -> ->])|(impl & f' & _ & _ & _ & [=])]. eauto.
    + intros (g & Hg & <- & <- & Hex). left. eauto.
  - intros i f. rewrite elem_of_app, Hmg, Hmi. split.
    + intros [(g & _ & _ & [=])|(impl & f' & Hi & Hf & Hex & [= -> ->])]. eauto.
    + intros (impl & Hi & <- & Hf & Hex). right. eauto 6.
  - intros s2 Hsame. revert Hrun.
    unfold validate_test_inventory_errors, mbind, M_bind, get_world, mret,
      M_ret. cbn [fst]. intros [= <-]. do 2 f_equal.
    + apply flat_map_ext. intros g. rewrite Hsame. reflexivity.
    + apply flat_map_ext. intros impl. apply flat_map_ext. intros f.
      rewrite Hsame. reflexivity.
Qed.

(** ** The Python extractor: what each set holds *)

Lemma walk_children_elem (p : position) (cs : list node) q m :
  ∀ i,
  (q, m) ∈ (fix walk_children (i : nat) (cs : list node)
              : list (position * node) :=
              match cs with
              | [] => []
              | c :: cs' => walk (p ++ [i]) c ++ walk_children (S i) cs'
              end) i cs
  ↔ ∃ j c, cs !! j = Some c ∧ (q, m) ∈ walk (p ++ [i + j]) c.
Proof.
  induction cs as [|c cs IH]; intros i.
  - split; [intros H; inversion H|]. intros (j & c & Hj & _). inversion Hj.
  - rewrite elem_of_app, IH. split.
    + intros [H|(j & c' & Hj & H)].
      * exists 0, c. rewrite Nat.add_0_r. auto.
      * exists (S j), c'. rewrite Nat.add_succ_r. auto.
    + intros ([|j] & c' & Hj & H).
      * injection Hj as <-. rewrite Nat.add_0_r in H. auto.
      * right. exists j, c'. rewrite Nat.add_succ_r in H. auto.
Qed.

(** The nodes [ast.walk] lists are the nodes inside its argument; the
    argument itself is the only one listed at its own position. *)
Lemma walk_inside n : ∀ p q m, (q, m) ∈ walk p n → inside m n.
Proof.
  induction n as [k cs IH] using node_nested_ind. intros p q m.
  cbn [walk]. rewrite elem_of_cons, (walk_children_elem p cs q m 0).
  intros [[= -> ->]|(j & c & Hj & Hin)]; [constructor|].
  apply (inside_child _ k cs c); [eapply list_elem_of_lookup_2, Hj|].
  rewrite Forall_forall in IH. eapply IH; [|exact Hin].
  eapply list_elem_of_lookup_2, Hj.
Qed.

Lemma inside_walk m n : inside m n → ∀ p, ∃ q, (q, m) ∈ walk p n.
Proof.
  induction 1 as [|k cs c Hc Hin IH]; intros p.
  - exists p. destruct m. cbn [walk]. left.
  - apply list_elem_of_lookup_1 in Hc as [j Hj].
    destruct (IH (p ++ [0 + j])) as [q Hq]. exists q.
    cbn [walk]. right. apply walk_children_elem. eauto.
Qed.

Lemma walk_head p n : (p, n) ∈ walk p n.
Proof. destruct n. cbn [walk]. left. Qed.

Lemma elem_of_walk_module body q m :
  (q, m) ∈ walk_module body
  ↔ ∃ i top, body !! i = Some top ∧ (q, m) ∈ walk [i] top.
Proof.
  unfold walk_module. rewrite elem_of_flat_map. split.
  - intros ([pos top] & (i & -> & Hi)%elem_of_module_body & Hin). eauto.
  - intros (i & top & Hi & Hin). exists ([i], top).
    split; [apply elem_of_module_body; eauto|exact Hin].
Qed.

(** The statements the loop of the extractors visits: everything inside a
    statement of the module body. *)
Lemma walk_module_inside body m :
  (∃ q, (q, m) ∈ walk_module body) ↔ ∃ top, top ∈ body ∧ inside m top.
Proof.
  split.
  - intros (q & (i & top & Hi & Hin)%elem_of_walk_module). exists top.
    split; [eapply list_elem_of_lookup_2, Hi|eapply walk_inside, Hin].
  - intros (top & [i Hi]%list_elem_of_lookup_1 & Hin).
    destruct (inside_walk _ _ Hin [i]) as [q Hq]. exists q.
    apply elem_of_walk_module. eauto.
Qed.

(** The sets after the loop has run over [l]. *)
Lemma visit_classes body l : ∀ syms x,
  x ∈ classes (foldl (visit body) syms l)
  ↔ x ∈ classes syms ∨ ∃ pn, pn ∈ l ∧ defines_class x pn.2.
Proof.
  unfold defines_class.
  induction l as [|pn l IH]; intros syms x; cbn [foldl].
  - split; [auto|]. intros [H|(pn & H & _)]; [exact H|inversion H].
  - rewrite IH. setoid_rewrite elem_of_cons.
    assert (x ∈ classes (visit body syms pn)
            ↔ x ∈ classes syms ∨ node_kind pn.2 = ClassDef x) as ->.
    { unfold visit. destruct (node_kind pn.2) eqn:Hk;
        repeat case_match; cbn [classes]; try set_solver. }
    split.
    + intros [[H|H]|(pn' & H & Hd)]; eauto.
    + intros [H|(pn' & [->|H] & Hd)]; eauto.
Qed.

Lemma visit_functions body l : ∀ syms x,
  x ∈ functions (foldl (visit body) syms l)
  ↔ x ∈ functions syms ∨ ∃ pn, pn ∈ l ∧ defines_function x pn.2.
Proof.
  unfold defines_function.
  induction l as [|pn l IH]; intros syms x; cbn [foldl].
  - split; [auto|]. intros [H|(pn & H & _)]; [exact H|inversion H].
  - rewrite IH. setoid_rewrite elem_of_cons.
    assert (x ∈ functions (visit body syms pn)
            ↔ x ∈ functions syms
              ∨ (node_kind pn.2 = FunctionDef x
                 ∨ node_kind pn.2 = AsyncFunctionDef x)) as ->.
    { unfold visit. destruct (node_kind pn.2) eqn:Hk;
        repeat case_match; cbn [functions]; try set_solver. }
    split.
    + intros [[H|H]|(pn' & H & Hd)]; eauto.
    + intros [H|(pn' & [->|H] & Hd)]; eauto.
Qed.

Lemma visit_globals body l : ∀ syms x,
  x ∈ globals (foldl (visit body) syms l)
  ↔ x ∈ globals syms
    ∨ ∃ pn, pn ∈ l ∧ is_top_level body pn.1 = true
            ∧ x ∈ assigned_names (node_kind pn.2).
Proof.
  induction l as [|pn l IH]; intros syms x; cbn [foldl].
  - split; [auto|]. intros [H|(pn & H & _)]; [exact H|inversion H].
  - rewrite IH. setoid_rewrite elem_of_cons.
    assert (x ∈ globals (visit body syms pn)
            ↔ x ∈ globals syms
              ∨ (is_top_level body pn.1 = true
                 ∧ x ∈ assigned_names (node_kind pn.2))) as ->.
    { unfold visit, assigned_names.
      destruct (node_kind pn.2) eqn:Hk;
        try destruct (is_top_level body pn.1); cbn [globals];
        rewrite ?elem_of_union, ?elem_of_list_to_set;
        try (split; [auto|intros [H|[_ H]]; [exact H|inversion H]]; fail);
        try (split; [intros [H|H]; auto|intros [H|[_ H]]; auto]; fail);
        try (split; [auto|intros [H|[[=] _]]; exact H]). }
    split.
    + intros [[H|H]|(pn' & H & Hd)]; eauto.
    + intros [H|(pn' & [->|H] & Hd)]; eauto.
Qed.

(** X10: the Python extractor lists definitions at any depth.  A name is in
    [classes] exactly when some [class] statement of that name sits
    anywhere inside a statement of the module body, and in [functions]
    exactly when some [def] or [async def] of that name does: methods and
    nested functions count like module-level ones. *)
Theorem python_definitions_at_any_depth body x :
  (x ∈ classes (module_symbols body)
   ↔ ∃ top m, top ∈ body ∧ inside m top ∧ defines_class x m)
  ∧ (x ∈ functions (module_symbols body)
     ↔ ∃ top m, top ∈ body ∧ inside m top ∧ defines_function x m).
Proof.
  unfold module_symbols. rewrite visit_classes, visit_functions.
  cbn [classes functions no_symbols]. split; split.
  - intros [H|([q m] & Hin & Hd)]; [set_solver|].
    destruct (proj1 (walk_module_inside body m)) as (top & Ht & Hi); eauto.
  - intros (top & m & Ht & Hi & Hd). right.
    destruct (proj2 (walk_module_inside body m)) as [q Hq]; eauto.
  - intros [H|([q m] & Hin & Hd)]; [set_solver|].
    destruct (proj1 (walk_module_inside body m)) as (top & Ht & Hi); eauto.
  - intros (top & m & Ht & Hi & Hd). right.
    destruct (proj2 (walk_module_inside body m)) as [q Hq]; eauto.
Qed.

(** X11: what the Python extractor counts as a global.  A name is in
    [globals] exactly when an assignment (plain or annotated) to that name
    sits anywhere inside a statement of the module body that is not itself
    a [def], [async def] or [class]: the assignment statement itself, or
    any assignment below a module-level [if], loop, [with] or [try],
    however deep. *)
Theorem python_globals_exact body x :
  x ∈ globals (module_symbols body)
  ↔ ∃ top m, top ∈ body ∧ is_definition (node_kind top) = false
             ∧ inside m top ∧ x ∈ assigned_names (node_kind m).
Proof.
  unfold module_symbols. rewrite visit_globals. cbn [globals no_symbols].
  split.
  - intros [H|([q m] & Hin & Htop & Hx)]; [set_solver|]. cbn [fst snd] in *.
    apply elem_of_walk_module in Hin as (i & top & Hi & Hin).
    exists top, m. split; [eapply list_elem_of_lookup_2, Hi|].
    split; [|split; [eapply walk_inside, Hin|exact Hx]].
    pose proof (walk_positions _ _ _ _ Hin) as [rest ->].
    change ([i] ++ rest) with (i :: rest) in *.
    rewrite (is_top_level_outermost body i top rest Hi) in Htop.
    2: { apply list_elem_of_fmap. exists (i :: rest, m). auto. }
    apply orb_prop in Htop as [Hnil|Hdef].
    + apply bool_decide_eq_true in Hnil as ->.
      assert (m = top) as ->.
      { destruct top as [k cs]. cbn [walk] in Hin.
        apply elem_of_cons in Hin as [[= ->]|Hin]; [reflexivity|].
        apply (walk_children_elem [i] cs [i] m 0) in Hin as (j & c & _ & Hin).
        apply walk_positions in Hin as [tail Htail].
        apply (f_equal length) in Htail. rewrite !length_app in Htail.
        cbn in Htail. lia. }
      destruct (node_kind top); cbn in Hx; try (inversion Hx; fail);
        reflexivity.
    + apply negb_true_iff, Hdef.
  - intros (top & m & [i Hi]%list_elem_of_lookup_1 & Hdef & Hin & Hx). right.
    destruct (inside_walk _ _ Hin [i]) as [q Hq]. exists (q, m).
    cbn [fst snd]. split; [apply elem_of_walk_module; eauto|].
    split; [|exact Hx].
    pose proof (walk_positions _ _ _ _ Hq) as [rest ->].
    change ([i] ++ rest) with (i :: rest) in *.
    rewrite (is_top_level_outermost body i top rest Hi).
    + rewrite Hdef. apply orb_true_r.
    + apply list_elem_of_fmap. exists (i :: rest, m). auto.
Qed.

(** ** The test functions of a Python file *)

Lemma visit_test_elem l : ∀ tests x,
  x ∈ foldl visit_test tests l
  ↔ x ∈ tests
    ∨ ∃ pn, pn ∈ l ∧ node_kind pn.2 = FunctionDef x
            ∧ String.prefix "test_" x = true.
Proof.
  induction l as [|pn l IH]; intros tests x; cbn [foldl].
  - split; [auto|]. intros [H|(pn & H & _)]; [exact H|inversion H].
  - rewrite IH. setoid_rewrite elem_of_cons.
    assert (x ∈ visit_test tests pn
            ↔ x ∈ tests ∨ (node_kind pn.2 = FunctionDef x
                           ∧ String.prefix "test_" x = true)) as ->.
    { unfold visit_test. destruct (node_kind pn.2) eqn:Hk;
        try (split; [auto|intros [H|[[=] _]]; exact H]).
      destruct (String.prefix "test_" name) eqn:Hp.
      - rewrite elem_of_union, elem_of_singleton. split.
        + intros [->|H]; auto.
        + intros [H|[[= ->] _]]; auto.
      - split; [auto|]. intros [H|[[= ->] H]]; [exact H|congruence]. }
    split.
    + intros [[H|H]|(pn' & H & Hd)]; eauto.
    + intros [H|(pn' & [->|H] & Hd)]; eauto.
Qed.

(** X12: the test functions of a Python file.  A name is returned exactly
    when the file can be read and parsed and a plain [def] of that name,
    at any depth, starts with [test_]; an unreadable or unparsable file
    gives the empty set, and an [async def] is never returned.  Every
    returned name is among the [functions] the symbol extractor returns
    for the same file. *)
Theorem python_test_functions_exact w path x :
  (x ∈ extract_test_functions_python w path
   ↔ ∃ content body top m,
       read_text w path = Ok content
       ∧ ast_parse w content path = Ok body
       ∧ top ∈ body ∧ inside m top
       ∧ node_kind m = FunctionDef x ∧ String.prefix "test_" x = true)
  ∧ (x ∈ extract_test_functions_python w path →
     ∃ syms, extract_python_symbols w path = Ok syms ∧ x ∈ functions syms).
Proof.
  assert (Hex : x ∈ extract_test_functions_python w path
    ↔ ∃ content body top m,
        read_text w path = Ok content
        ∧ ast_parse w content path = Ok body
        ∧ top ∈ body ∧ inside m top
        ∧ node_kind m = FunctionDef x ∧ String.prefix "test_" x = true).
  { unfold extract_test_functions_python.
    destruct (read_text w path) as [content|e].
    2: { split; [set_solver|]. intros (? & ? & ? & ? & [=] & _). }
    destruct (ast_parse w content path) as [body|e] eqn:Hparse.
    2: { split; [set_solver|]. intros (? & ? & ? & ? & [= <-] & ? & _).
         congruence. }
    unfold module_test_functions. rewrite visit_test_elem. split.
    - intros [H|([q m] & Hin & Hk & Hp)]; [set_solver|].
      destruct (proj1 (walk_module_inside body m)) as (top & Ht & Hi);
        [eauto|]. exists content, body, top, m. auto 8.
    - intros (c & b & top & m & [= <-] & Hb & Ht & Hi & Hk & Hp). right.
      assert (b = body) as -> by congruence.
      destruct (proj2 (walk_module_inside body m)) as [q Hq]; eauto. }
  split; [exact Hex|].
  intros (content & body & top & m & Hr & Hp & Ht & Hi & Hk & _)%Hex.
  exists (module_symbols body). unfold extract_python_symbols.
  rewrite Hr, Hp. split; [reflexivity|].
  unfold module_symbols. apply visit_functions. right.
  destruct (proj2 (walk_module_inside body m)) as [q Hq]; [eauto|].
  exists (q, m). split; [exact Hq|]. left. exact Hk.
Qed.

(** ** The matcher finds only what the pattern can match *)

Section matcher.

Variable Q : string → Prop.

(** Whenever the matcher succeeds on [r], it has called its continuation
    at a suffix [r] can leave, and with group text as [r] captures it. *)
Lemma exec_sound r :
  groups_capture Q r →
  ∀ s cap k o,
    exec r s cap k = Some o →
    ∃ s' cap', k s' cap' = Some o ∧ matches r s s'
               ∧ (captured Q cap ∨ sets_group r = true → captured Q cap').
Proof.
  induction r as [|p|r1 IH1 r2 IH2|r1 IH1 r2 IH2|r1 IH1|r1 IH1|r1 IH1];
    intros Hg s cap k o; cbn [exec sets_group].
  - intros Hk. exists s, cap. split; [exact Hk|]. split; [constructor|].
    intros [H|[=]]. exact H.
  - destruct s as [|c s]; [discriminate|].
    destruct (p c) eqn:Hp; [|discriminate].
    intros Hk. exists s, cap. split; [exact Hk|].
    split; [constructor; exact Hp|]. intros [H|[=]]. exact H.
  - destruct Hg as [Hg1 Hg2]. intros Hx.
    apply (IH1 Hg1) in Hx as (s1 & cap1 & Hx & Hm1 & Hc1).
    apply (IH2 Hg2) in Hx as (s2 & cap2 & Hx & Hm2 & Hc2).
    exists s2, cap2. split; [exact Hx|]. split; [econstructor; eauto|].
    intros [H|[H|H]%orb_prop]; auto.
  - destruct Hg as [Hg1 Hg2].
    destruct (exec r1 s cap k) as [o1|] eqn:H1.
    + intros [= ->]. apply (IH1 Hg1) in H1 as (s1 & cap1 & Hx & Hm1 & Hc1).
      exists s1, cap1. split; [exact Hx|].
      split; [apply matches_alt_l, Hm1|].
      intros [H|[H _]%andb_prop]; auto.
    + intros H2. apply (IH2 Hg2) in H2 as (s2 & cap2 & Hx & Hm2 & Hc2).
      exists s2, cap2. split; [exact Hx|].
      split; [apply matches_alt_r, Hm2|].
      intros [H|[_ H]%andb_prop]; auto.
  - cbn [groups_capture] in Hg. generalize (String.length s) as n.
    intros n. revert s cap. induction n as [|n IHn]; intros s cap.
    + intros Hk. exists s, cap. split; [exact Hk|].
      split; [constructor|]. intros [H|[=]]. exact H.
    + match goal with
      | |- context [exec r1 s cap ?k'] =>
          destruct (exec r1 s cap k') as [o1|] eqn:H1
      end.
      * intros [= ->].
        apply (IH1 Hg) in H1 as (s1 & cap1 & Hx & Hm1 & Hc1).
        destruct (String.length s1 <? String.length s)%nat; [|discriminate].
        apply IHn in Hx as (s2 & cap2 & Hx & Hm2 & Hc2).
        exists s2, cap2. split; [exact Hx|].
        split; [econstructor; eauto|].
        intros [H|[=]]. auto.
      * intros Hk. exists s, cap. split; [exact Hk|].
        split; [constructor|]. intros [H|[=]]. exact H.
  - destruct Hg as [HQ Hg]. intros Hx.
    apply (IH1 Hg) in Hx as (s1 & cap1 & Hx & Hm1 & _).
    exists s1, (Some (consumed s s1)). split; [exact Hx|].
    split; [constructor; exact Hm1|]. intros _. eexists. eauto.
  - destruct (exec r1 s cap _); [discriminate|].
    intros Hk. exists s, cap. split; [exact Hk|].
    split; [constructor|]. intros [H|[=]]. exact H.
Qed.

Lemma match_here_sound r s s' cap :
  groups_capture Q r → sets_group r = true →
  match_here r s = Some (s', cap) →
  ∃ w, cap = Some w ∧ Q w.
Proof.
  intros Hg Hs Hm. unfold match_here in Hm.
  apply (exec_sound r Hg) in Hm as (s1 & cap1 & [= -> ->] & _ & Hc).
  apply Hc. auto.
Qed.

Lemma matches_from_sound r :
  groups_capture Q r → sets_group r = true →
  ∀ fuel s x, x ∈ (matches_from fuel r s).*1 → Q x.
Proof.
  intros Hg Hs. induction fuel as [|fuel IH]; intros s x; cbn [matches_from].
  - intros H. inversion H.
  - destruct (match_here r s) as [[s' cap]|] eqn:Hm.
    + rewrite fmap_cons, elem_of_cons. cbn [fst]. intros [->|Hin].
      * destruct (match_here_sound _ _ _ _ Hg Hs Hm) as (w & -> & Hw).
        exact Hw.
      * destruct (String.length s' <? String.length s)%nat;
          [exact (IH _ _ Hin)|].
        destruct s; [inversion Hin|exact (IH _ _ Hin)].
    + destruct s; [intros H; inversion H|apply IH].
Qed.

(** Every string [findall] returns for a pattern with a group on every
    match is the text of that group. *)
Lemma findall_sound r s x :
  groups_capture Q r → sets_group r = true → x ∈ findall r s → Q x.
Proof. intros Hg Hs. apply matches_from_sound; assumption. Qed.

End matcher.

(** ** What a group around one or more characters of a class captures *)

Lemma length_append w s :
  String.length (w +:+ s) = (String.length w + String.length s)%nat.
Proof.
  induction w as [|c w IH]; [reflexivity|].
  change (String c w +:+ s) with (String c (w +:+ s)).
  cbn [String.length]. rewrite IH. reflexivity.
Qed.

Lemma consumed_append w s : consumed (w +:+ s) s = w.
Proof.
  unfold consumed. rewrite length_append.
  replace (String.length w + String.length s - String.length s)%nat
    with (String.length w) by lia.
  induction w as [|c w IH].
  - change ("" +:+ s) with s. destruct s; reflexivity.
  - change (String c w +:+ s) with (String c (w +:+ s)).
    cbn [String.length String.substring]. f_equal. exact IH.
Qed.

Lemma matches_chr_inv p s s' :
  matches (Chr p) s s' → ∃ c, s = String c s' ∧ p c = true.
Proof. inversion 1; subst. eauto. Qed.

Lemma matches_star_chr p s s' :
  matches (Star (Chr p)) s s' →
  ∃ w, s = w +:+ s' ∧ forallb p (chars w) = true.
Proof.
  intros H. remember (Star (Chr p)) as r eqn:Hr.
  induction H as [| | | | | r s | r s s1 s2 H1 _ H2 IH | |]; try discriminate.
  - exists "". split; reflexivity.
  - injection Hr as ->. destruct (IH eq_refl) as (w & -> & Hw).
    apply matches_chr_inv in H1 as (c & -> & Hc).
    exists (String c w). split; [reflexivity|]. cbn. rewrite Hc. exact Hw.
Qed.

(** A group around [p+] captures a non-empty run of characters of [p]. *)
Lemma plus_chr_consumed p s s' :
  matches (plus (Chr p)) s s' →
  negb (String.eqb (consumed s s') "") && forallb p (chars (consumed s s'))
  = true.
Proof.
  unfold plus. inversion 1 as [| |r1 r2 s0 s1 s2 H1 H2| | | | | |]; subst.
  apply matches_chr_inv in H1 as (c & -> & Hc).
  apply matches_star_chr in H2 as (w & -> & Hw).
  change (String c (w +:+ s')) with (String c w +:+ s').
  rewrite consumed_append. cbn. rewrite Hc. exact Hw.
Qed.

(** ** The names the JavaScript extractor returns *)

Lemma steps_classes content st :
  symbols_classes
    (step_publish_globals
       (step_exports content
          (step_globals content
             (step_publish_functions
                (step_functions content
                   (step_methods content (step_classes content st)))))))
  = symbols_classes st ∪ list_to_set (findall class_pattern content).
Proof. reflexivity. Qed.

Lemma steps_globals content st :
  symbols_globals
    (step_publish_globals
       (step_exports content
          (step_globals content
             (step_publish_functions
                (step_functions content
                   (step_methods content (step_classes content st)))))))
  = symbols_globals st
    ∪ (local_globals_set st
       ∪ list_to_set (find_all_of global_patterns content)).
Proof. reflexivity. Qed.

Lemma returned_classes content :
  classes (returned_symbols (run_regex_parser content))
  = list_to_set (findall class_pattern content).
Proof.
  unfold run_regex_parser, returned_symbols. cbn [classes].
  rewrite steps_classes. apply (left_id_L ∅ (∪)).
Qed.

Lemma returned_globals content :
  globals (returned_symbols (run_regex_parser content))
  = list_to_set (find_all_of global_patterns content).
Proof.
  unfold run_regex_parser, returned_symbols. cbn [globals].
  rewrite steps_globals.
  etransitivity; [apply (left_id_L ∅ (∪))|apply (left_id_L ∅ (∪))].
Qed.

(** Every pattern whose matches reach the returned sets has its one group
    around [\w+], and no match without it. *)
Lemma symbol_patterns_capture_words :
  Forall (λ r, groups_capture (λ x, is_identifier x = true) r
               ∧ sets_group r = true)
    (class_pattern :: method_patterns ++ function_patterns ++ global_patterns).
Proof.
  unfold method_patterns, function_patterns, global_patterns, class_pattern.
  cbn [app].
  repeat (apply Forall_cons_2;
          [split;
           [cbn [groups_capture seq_all foldr lit binding app function_value
                 not_function_value plus word space];
            repeat split; try exact I;
            intros s s' H; exact (plus_chr_consumed is_word s s' H)
           |reflexivity]
          |]).
  apply Forall_nil_2.
Qed.

Lemma symbol_pattern_finds_words r text x :
  r ∈ class_pattern :: method_patterns ++ function_patterns ++ global_patterns →
  x ∈ findall r text → is_identifier x = true.
Proof.
  intros Hr Hx.
  pose proof symbol_patterns_capture_words as Hall.
  rewrite Forall_forall in Hall. destruct (Hall r Hr) as [Hg Hs].
  exact (findall_sound (λ x, is_identifier x = true) r text x Hg Hs Hx).
Qed.

Lemma find_all_of_words patterns text x :
  patterns ⊆ class_pattern :: method_patterns ++ function_patterns
                           ++ global_patterns →
  x ∈ find_all_of patterns text → is_identifier x = true.
Proof.
  intros Hsub (r & Hr & Hx)%elem_of_flat_map.
  eapply symbol_pattern_finds_words; [apply Hsub, Hr|exact Hx].
Qed.

Lemma regex_parser_names content x :
  x ∈ all_symbols (returned_symbols (run_regex_parser content)) →
  is_identifier x = true.
Proof.
  unfold all_symbols.
  rewrite returned_classes, returned_functions, returned_globals.
  rewrite !elem_of_union, !elem_of_list_to_set.
  intros [[Hc|[Hm|Hf]]|Hg].
  - eapply symbol_pattern_finds_words; [left|exact Hc].
  - apply elem_of_flat_map in Hm as (c & _ & Hm). unfold class_methods in Hm.
    apply elem_of_flat_map in Hm as (m & _ & Hm).
    eapply (find_all_of_words method_patterns); [|exact Hm].
    intros r Hr. right. apply elem_of_app. auto.
  - eapply (find_all_of_words function_patterns); [|exact Hf].
    intros r Hr. right. rewrite !elem_of_app. auto.
  - eapply (find_all_of_words global_patterns); [|exact Hg].
    intros r Hr. right. rewrite !elem_of_app. auto.
Qed.

Lemma tree_sitter_unused w path language :
  _parse_with_treesitter w path language = None.
Proof.
  unfold _parse_with_treesitter, _init_treesitter_parser.
  destruct (tree_sitter_importable w); [case_bool_decide|]; reflexivity.
Qed.

(** X13: the JavaScript extractor never uses tree-sitter.  Whether the
    module can be imported, and whatever the extension and so the language
    of the file, the result is that of the regex parser. *)
Theorem javascript_extraction_is_regex_parsing w path :
  extract_javascript_symbols w path = _parse_javascript_with_regex w path.
Proof.
  unfold extract_javascript_symbols. cbv zeta.
  rewrite tree_sitter_unused. reflexivity.
Qed.

(** X14: every class, function and global name the JavaScript extractor
    returns for a file of ASCII text is a non-empty run of letters, digits
    and underscores: the text of the group [\w+] of one of the patterns,
    never a whole match or a piece of punctuation. *)
Theorem javascript_names_are_identifiers w path content syms x :
  read_text w path = Ok content →
  ascii_text content →
  extract_javascript_symbols w path = Ok syms →
  x ∈ all_symbols syms →
  is_identifier x = true.
Proof.
  intros Hread _. unfold extract_javascript_symbols. cbv zeta.
  rewrite tree_sitter_unused. unfold _parse_javascript_with_regex.
  rewrite Hread. intros [= <-]. apply regex_parser_names.
Qed.

Lemma javascript_names_are_identifiers_witness :
  is_identifier "MyClass" = true.
Proof.
  apply (javascript_names_are_identifiers
           (one_file_world "app.js" regex_test_js []) "app.js" regex_test_js
           (returned_symbols (run_regex_parser regex_test_js))).
  - reflexivity.
  - apply (bool_decide_unpack _). vm_compute. exact I.
  - reflexivity.
  - apply (bool_decide_unpack _). vm_compute. exact I.
Defined.

(** ** The test names of a JavaScript file *)

(** The file written by [test_extract_test_functions_javascript]: its
    three titles are found. *)
Lemma test_names_of_test_file :
  let q := String "034" "" in
  let content :=
    "
test('should do something', () => {});
it('should handle edge cases', () => {});
test(" +:+ q +:+ "should parse correctly" +:+ q +:+ ", () => {});
" in
  findall test_pattern content
  = ["should do something"; "should handle edge cases";
     "should parse correctly"].
Proof. vm_compute. reflexivity. Qed.

Lemma test_pattern_captures_names :
  groups_capture (λ x, is_test_name x = true) test_pattern
  ∧ sets_group test_pattern = true.
Proof.
  split; [|reflexivity].
  unfold test_pattern.
  cbn [groups_capture seq_all foldr lit plus space].
  repeat split; try exact I.
  intros s s' H. exact (plus_chr_consumed _ s s' H).
Qed.

(** X15: a test name the JavaScript test-name extractor returns is never
    empty and contains neither quote character; nothing is returned for a
    file that cannot be read. *)
Theorem javascript_test_names_are_unquoted w path x :
  x ∈ extract_test_functions_javascript w path →
  (∃ content, read_text w path = Ok content) ∧ is_test_name x = true.
Proof.
  unfold extract_test_functions_javascript.
  destruct (read_text w path) as [content|e]; [|set_solver].
  rewrite elem_of_list_to_set. intros Hx. split; [eauto|].
  destruct test_pattern_captures_names as [Hg Hs].
  exact (findall_sound (λ x, is_test_name x = true) _ _ _ Hg Hs Hx).
Qed.

Lemma javascript_test_names_are_unquoted_witness :
  (∃ content,
     read_text (one_file_world "a.test.js" "test('adds', () => {});" [])
       "a.test.js" = Ok content)
  ∧ is_test_name "adds" = true.
Proof.
  apply (javascript_test_names_are_unquoted
           (one_file_world "a.test.js" "test('adds', () => {});" [])
           "a.test.js" "adds").
  apply (bool_decide_unpack _). vm_compute. exact I.
Defined.

(** ** Two runs that iterate sets in different orders *)

Section any_order.

Variables iter1 iter2 : list string → list string.
Variable solution_map : pydict Solution.






End any_order.




(** ** Two runs on the same project *)






(** ** The full validation *)






(** ** When the whole validation passes *)









(** On a stdout that cannot write the first line, [validate] raises
    before it checks anything. *)
Lemma validate_raises_on_narrow_stdout frames a s :
  validate (λ _, false) frames a s = (Raise unicode_encode_error, s).
Proof. reflexivity. Qed.

(** With too little room for the traversal, [validate] raises
    [RecursionError]. *)
Lemma validate_raises_on_deep_chain :
  (validate (λ _, true) 3 (mkArchitecture [] tail_into_loop [])
     (start_of empty_world)).1
  = Raise recursion_error.
Proof. vm_compute. reflexivity. Qed.

(** Below a directory called [examples] no file is ever undeclared: the
    empty architecture passes although [src/y.py] is on disk. *)
Lemma validate_below_examples :
  file_at (listing world_below_examples ".") ["src"] "y.py" = true
  ∧ (validate (λ _, true) 1 (mkArchitecture [] [] [])
       (start_of world_below_examples)).1 = Ok Validated.
Proof. split; vm_compute; reflexivity. Qed.



(** The project of the example passes. *)
Lemma passing_project_validates :
  (validate (λ _, true) 2 passing_architecture (start_of passing_world)).1
  = Ok Validated.
Proof. vm_compute. reflexivity. Qed.

(** ** Running the tests of a node *)

Lemma first_with_id_some {A} (id_of : A → string) node_id xs x :
  first_with_id id_of node_id xs = Some x → x ∈ xs ∧ id_of x = node_id.
Proof.
  intros [Hin Heq]%List.find_some. split; [apply list_elem_of_In, Hin|].
  apply String.eqb_eq, Heq.
Qed.

Lemma first_with_id_none {A} (id_of : A → string) node_id xs :
  first_with_id id_of node_id xs = None ↔ node_id ∉ map id_of xs.
Proof.
  unfold first_with_id. split.
  - intros Hnone (x & -> & Hin)%list_elem_of_fmap.
    apply list_elem_of_In in Hin.
    pose proof (List.find_none _ _ Hnone x Hin) as Hx. cbn in Hx.
    rewrite String.eqb_refl in Hx. discriminate.
  - intros Hnot. destruct (List.find _ xs) as [x|] eqn:Hfind; [|reflexivity].
    exfalso. apply first_with_id_some in Hfind as [Hin <-].
    apply Hnot, list_elem_of_fmap. eauto.
Qed.

Lemma run_files_run node_id files cmd :
  run_files node_id files = Run cmd → cmd = "pytest" :: files ∧ files ≠ [].
Proof. destruct files; [discriminate|]. intros [= <-]. split; congruence. Qed.

Lemma elem_of_declared_test_files impls goals f :
  f ∈ declared_test_files impls (Some goals)
  ↔ (∃ impl, impl ∈ impls ∧ f ∈ test_files impl)
    ∨ ∃ g, g ∈ goals ∧ acceptance_test g = f.
Proof.
  unfold declared_test_files.
  rewrite elem_of_union, elem_of_list_to_set, elem_of_flat_map.
  apply or_iff_compat_l. destruct goals as [|g gs].
  - split; [set_solver|]. intros (g & H & _). inversion H.
  - rewrite elem_of_list_to_set, list_elem_of_fmap. split.
    + intros (g' & -> & Hin). eauto.
    + intros (g' & Hin & <-). eauto.
Qed.

(** X17: how [run_tests] ends.  The node is reported as not found exactly
    when its id is that of no Implementation and of no Goal.  When pytest
    is run, it is run on at least one file, every file is one the code
    inventory counts as a declared test file, and in a project whose
    tests are all present every one of them exists.  The message about
    missing test files is only given for an Implementation with no test
    files, and an Implementation hides every Goal of the same id. *)
Theorem run_tests_outcomes w root a node_id :
  (run_tests a node_id = NodeNotFound node_id
   ↔ (node_id ∉ map impl_id (arch_implementations a))
     ∧ (node_id ∉ map goal_id (arch_goals a)))
  ∧ (∀ cmd, run_tests a node_id = Run cmd →
       ∃ files, cmd = "pytest" :: files ∧ files ≠ []
         ∧ (∀ f, f ∈ files →
              f ∈ declared_test_files (arch_implementations a)
                    (Some (arch_goals a)))
         ∧ (tests_present w root a →
            ∀ f, f ∈ files → path_exists w (path_join root f) = true))
  ∧ (run_tests a node_id = NoTestFiles node_id →
     ∃ impl, impl ∈ arch_implementations a ∧ impl_id impl = node_id
             ∧ test_files impl = [])
  ∧ (node_id ∈ map impl_id (arch_implementations a) →
     ∀ goals,
       run_tests (mkArchitecture goals (arch_solutions a)
                    (arch_implementations a)) node_id
       = run_tests a node_id).
Proof.
  unfold run_tests. cbn [arch_implementations arch_goals].
  destruct (first_with_id impl_id node_id (arch_implementations a))
    as [impl|] eqn:Himpl.
  - pose proof (first_with_id_some _ _ _ _ Himpl) as [Hin Hid].
    split; [|split; [|split]].
    + split.
      * destruct (test_files impl); discriminate.
      * intros [Hnot _]. exfalso. apply Hnot, list_elem_of_fmap. eauto.
    + intros cmd [-> Hne]%run_files_run. exists (test_files impl).
      split; [reflexivity|]. split; [exact Hne|]. split.
      * intros f Hf. apply elem_of_declared_test_files. eauto.
      * intros [_ Hfiles] f Hf. eauto.
    + intros Hrun. exists impl. split; [exact Hin|]. split; [exact Hid|].
      destruct (test_files impl); [reflexivity|discriminate].
    + reflexivity.
  - apply first_with_id_none in Himpl.
    destruct (first_with_id goal_id node_id (arch_goals a)) as [g|] eqn:Hgoal.
    + pose proof (first_with_id_some _ _ _ _ Hgoal) as [Hin Hid].
      split; [|split; [|split]].
      * split; [discriminate|].
        intros [_ Hnot]. exfalso. apply Hnot, list_elem_of_fmap. eauto.
      * intros cmd [-> Hne]%run_files_run. exists [acceptance_test g].
        split; [reflexivity|]. split; [exact Hne|]. split.
        -- intros f ->%list_elem_of_singleton.
           apply elem_of_declared_test_files. eauto.
        -- intros [Hgoals _] f ->%list_elem_of_singleton. eauto.
      * discriminate.
      * intros Hin'. exfalso. exact (Himpl Hin').
    + apply first_with_id_none in Hgoal.
      split; [|split; [|split]].
      * split; auto.
      * discriminate.
      * discriminate.
      * intros Hin'. exfalso. exact (Himpl Hin').
Qed.
